(** * effect-forms: the FormData record codec and the form-model formatter

    A shallow embedding of [src/FormData.ts] and [src/FormModelFormatter.ts].

    - JavaScript objects used as records are modelled by their own enumerable
      string-keyed properties, listed in the order in which [Object.keys],
      [Object.entries] and [for ... in] enumerate them: canonical array
      indices first, in ascending numeric order, then every other key in
      the order in which it was created.  The objects that the code
      creates are ordinary objects, whose prototype chain ends in
      [Object.prototype]: assigning to their [__proto__] runs the accessor of
      that name, which sets the prototype and creates no property.
    - [FormData] is the ordered list of its entries.
    - The [Map] built by the formatter is only read with [get], so it is a
      [gmap] from path strings to values.
    - The schema library (effect's [Schema], [ParseResult.ArrayFormatter]) is
      an injected capability: its operations are section variables. *)

From Stdlib Require Import DecimalString.
From Stdlib Require Import Sorted.
From stdpp Require Import gmap strings list.

Open Scope string_scope.
Open Scope list_scope.
Set Warnings "-register-all".

(** ** JavaScript objects as ordered property lists *)

Module JsObject.

(** [String(n)] for a non-negative integer. *)
Definition N_to_string (n : N) : string :=
  NilZero.string_of_uint (N.to_uint n).

(** A property key is an array index when it is the canonical decimal
    spelling of an integer below [2^32 - 1]. *)
Definition array_index (k : string) : option N :=
  match NilZero.uint_of_string k with
  | Some u =>
      let n := N.of_uint u in
      if (n <? 4294967295)%N && String.eqb (N_to_string n) k
      then Some n else None
  | None => None
  end.

Definition is_array_index (k : string) : bool :=
  match array_index k with Some _ => true | None => false end.

(** [js_before k1 k2]: a property named [k1] may be enumerated before a
    property named [k2] that was created after it. *)
Definition js_before (k1 k2 : string) : bool :=
  match array_index k1, array_index k2 with
  | Some n1, Some n2 => (n1 <? n2)%N
  | Some _, None => true
  | None, Some _ => false
  | None, None => true
  end.

Section Obj.
Context {V : Type}.

Definition obj := list (string * V).

Definition empty : obj := [].

Definition Object_keys (o : obj) : list string := map fst o.
Definition Object_entries (o : obj) : list (string * V) := o.

(** [o[k]], [None] when [k] is not an own property. *)
Fixpoint obj_get (k : string) (o : obj) : option V :=
  match o with
  | [] => None
  | (k', v) :: rest => if String.eqb k' k then Some v else obj_get k rest
  end.

(** [Object.prototype.hasOwnProperty.call(o, k)] *)
Definition hasOwnProperty (k : string) (o : obj) : bool :=
  match obj_get k o with Some _ => true | None => false end.

(** Assignment to an existing property keeps its position. *)
Fixpoint obj_update (k : string) (v : V) (o : obj) : obj :=
  match o with
  | [] => []
  | (k', v') :: rest =>
      if String.eqb k' k then (k', v) :: rest
      else (k', v') :: obj_update k v rest
  end.

(** A new array-index property goes after the smaller indices. *)
Fixpoint obj_insert_index (n : N) (k : string) (v : V) (o : obj) : obj :=
  match o with
  | [] => [(k, v)]
  | (k', v') :: rest =>
      match array_index k' with
      | Some n' =>
          if (n' <? n)%N then (k', v') :: obj_insert_index n k v rest
          else (k, v) :: (k', v') :: rest
      | None => (k, v) :: (k', v') :: rest
      end
  end.

(** The name of the prototype accessor of [Object.prototype]. *)
Definition proto : string := "__proto__".

(** Creating or overwriting the own property [k]. *)
Definition obj_define (k : string) (v : V) (o : obj) : obj :=
  if hasOwnProperty k o then obj_update k v o
  else match array_index k with
       | Some n => obj_insert_index n k v o
       | None => o ++ [(k, v)]
       end.

(** [o[k] = v] on an ordinary object.  For [__proto__], when the object has
    no own property of that name, the assignment runs the accessor
    inherited from [Object.prototype]: the own properties stay as they
    are. *)
Definition obj_set (k : string) (v : V) (o : obj) : obj :=
  if String.eqb k proto && negb (hasOwnProperty k o) then o
  else obj_define k v o.

(** The key lists that an object can enumerate: no key twice, every key
    before the keys that follow it. *)
Fixpoint js_keys_ok (ks : list string) : bool :=
  match ks with
  | [] => true
  | k :: rest =>
      negb (existsb (String.eqb k) rest)
      && forallb (js_before k) rest
      && js_keys_ok rest
  end.

Definition js_object (o : obj) : bool := js_keys_ok (Object_keys o).

End Obj.

Arguments obj : clear implicits.

End JsObject.
Import JsObject.

(** Keys in order of first occurrence. *)
Fixpoint first_seen (ks : list string) : list string :=
  match ks with
  | [] => []
  | k :: rest => k :: List.filter (fun k' => negb (String.eqb k k')) (first_seen rest)
  end.

(** ** Effects with a success and a failure channel *)

Module Effect.

Inductive Effect (A E : Type) : Type :=
| Success (a : A)
| Failure (e : E).
Arguments Success {A E} a.
Arguments Failure {A E} e.

Definition succeed {A E} (a : A) : Effect A E := Success a.

Definition map {A B E} (self : Effect A E) (f : A -> B) : Effect B E :=
  match self with
  | Success a => Success (f a)
  | Failure e => Failure e
  end.

Definition flip {A E} (self : Effect A E) : Effect E A :=
  match self with
  | Success a => Failure a
  | Failure e => Success e
  end.

Definition catchAll {A E E2} (self : Effect A E) (f : E -> Effect A E2)
  : Effect A E2 :=
  match self with
  | Success a => Success a
  | Failure e => f e
  end.

Definition flatMap {A B E} (self : Effect A E) (f : A -> Effect B E)
  : Effect B E :=
  match self with
  | Success a => f a
  | Failure e => Failure e
  end.

End Effect.
Import Effect(Effect, Success, Failure).

(** ** Property keys and paths *)

(** [PropertyKey]: a property name, or a number that is an array position.
    Symbols are outside this model: [Array.prototype.join] throws on them,
    so nothing below speaks of a path with a symbol. *)
Inductive PropertyKey :=
| KString (s : string)
| KNumber (n : N).

(** The string of a segment in [join]: a name as it is, a position in
    decimal, as JavaScript prints the integers below [10^21]. *)
Definition ToString (k : PropertyKey) : string :=
  match k with
  | KString s => s
  | KNumber n => N_to_string n
  end.

(** [items.join(sep)] *)
Fixpoint join (sep : string) (items : list PropertyKey) : string :=
  match items with
  | [] => ""
  | k :: rest =>
      match rest with
      | [] => ToString k
      | _ :: _ => ToString k +:+ sep +:+ join sep rest
      end
  end.

(** [ParseResult.Path = SingleOrNonEmpty<PropertyKey>] *)
Inductive Path :=
| PathSingle (k : PropertyKey)
| PathArray (ks : list PropertyKey).

Inductive LeafTag := TypeTag | MissingTag | UnexpectedTag | ForbiddenTag.

(** ** Encoded types of schema nodes (the [I] of [Schema<A, I, R>]) *)

(** The kinds of encoded type that the descriptors are tried on: string,
    [File], number, boolean, plain object, and arrays of these.  [any],
    [never], unions and literal types are not among them. *)
Inductive EncodedType :=
| TString
| TFile
| TNumber
| TBoolean
| TObject
| TArray (item : EncodedType).

(** [I extends globalThis.FormDataEntryValue], that is [string | File] *)
Definition extends_FormDataEntryValue (I : EncodedType) : bool :=
  match I with
  | TString | TFile => true
  | _ => false
  end.

(** [I extends FormDataCoercibleValue], that is
    [FormDataEntryValue | ReadonlyArray<FormDataEntryValue>] *)
Definition extends_FormDataCoercibleValue (I : EncodedType) : bool :=
  extends_FormDataEntryValue I
  || match I with
     | TArray item => extends_FormDataEntryValue item
     | _ => false
     end.

(** The encoded types the specification names as not form-coercible:
    number, boolean, plain object, and arrays of these. *)
Definition not_form_coercible (I : EncodedType) : bool :=
  match I with
  | TNumber | TBoolean | TObject => true
  | TArray (TNumber | TBoolean | TObject) => true
  | _ => false
  end.

(** ** Values for the examples *)

(** [String(b)] for a boolean. *)
Definition String_boolean (b : bool) : string :=
  if b then "true" else "false".

(** Actual values of issues: [undefined], a string, a number, or an object
    known by a label. *)
Inductive sample_value :=
| SUndefined
| SText (s : string)
| SNumber (n : N)
| SObject (label : string).

Section Forms.

(** Opaque file handles, and the JavaScript values that are neither
    strings, files, [null] nor [undefined], with their [String(x)]. *)
Context {File Other : Type}.
Variable String_other : Other -> string.

(** *** FormData *)

(** [globalThis.FormDataEntryValue = string | File] *)
Inductive FormDataEntryValue :=
| EntryString (s : string)
| EntryFile (f : File).

Definition FormData := list (string * FormDataEntryValue).

Definition FormData_new : FormData := [].

(** [formData.append(name, value)] *)
Definition append (name : string) (value : FormDataEntryValue)
  (formData : FormData) : FormData :=
  formData ++ [(name, value)].

(** [formData.entries()] *)
Definition entries (formData : FormData) : list (string * FormDataEntryValue) :=
  formData.

(** [formData.getAll(name)] *)
Definition getAll (name : string) (formData : FormData)
  : list FormDataEntryValue :=
  map snd (List.filter (fun e => String.eqb (fst e) name) formData).

(** *** Records *)

(** What a record slot can hold at run time. *)
Inductive JsValue :=
| JsUndefined
| JsNull
| JsString (s : string)
| JsFile (f : File)
| JsOther (o : Other).

(** [FormDataCoercibleValue]: a single value, or an array of values
    ([Array.isArray(value)]). *)
Inductive FormDataCoercibleValue :=
| Single (value : JsValue)
| Many (items : list JsValue).

Definition FormDataRecord := obj FormDataCoercibleValue.

Definition of_entry (value : FormDataEntryValue) : JsValue :=
  match value with
  | EntryString s => JsString s
  | EntryFile f => JsFile f
  end.

(** [v == null] *)
Definition is_nullish (v : JsValue) : bool :=
  match v with
  | JsUndefined | JsNull => true
  | _ => false
  end.

(** [String(v)] *)
Definition String_ (v : JsValue) : string :=
  match v with
  | JsUndefined => "undefined"
  | JsNull => "null"
  | JsString s => s
  | JsFile _ => "[object File]"
  | JsOther o => String_other o
  end.

(** [v instanceof globalThis.File ? v : String(v)] *)
Definition coerce (v : JsValue) : FormDataEntryValue :=
  match v with
  | JsFile f => EntryFile f
  | _ => EntryString (String_ v)
  end.

(** [Array.groupBy(self, f)]: a fresh object, one array per key. *)
Definition Array_groupBy {A} (self : list A) (f : A -> string)
  : obj (list A) :=
  fold_left
    (fun out a =>
       let k := f a in
       match obj_get k out with
       | Some group => obj_set k (group ++ [a]) out
       | None => obj_set k [a] out
       end)
    self empty.

(** [Record.fromIterableWith(self, f)] *)
Definition Record_fromIterableWith {A B} (self : list A)
  (f : A -> string * B) : obj B :=
  fold_left (fun out a => let '(k, b) := f a in obj_set k b out) self empty.

(** [Record.reduce(self, zero, f)]: over [Object.keys(self)]. *)
Definition Record_reduce {A Acc} (self : obj A) (zero : Acc)
  (f : Acc -> A -> string -> Acc) : Acc :=
  fold_left (fun out '(key, value) => f out value key)
    (Object_entries self) zero.

(** [Record.map(self, f)] *)
Definition Record_map {A B} (self : obj A) (f : A -> B) : obj B :=
  map (fun '(key, value) => (key, f value)) self.

(** [Array.forEach(self, f)], threading the object that [f] mutates. *)
Definition Array_forEach {A Acc} (self : list A) (f : Acc -> A -> Acc)
  (acc : Acc) : Acc :=
  fold_left f self acc.

Definition toRecord (formData : FormData) : FormDataRecord :=
  let grouped := Array_groupBy (entries formData) (fun '(key, _) => key) in
  Record_fromIterableWith (Object_entries grouped)
    (fun '(key, entries) =>
       let values := map (fun '(_, value) => value) entries in
       (key,
        match values with
        | [value] => Single (of_entry value)
        | _ => Many (map of_entry values)
        end)).

Definition fromFormDataRecord (input : FormDataRecord) : FormData :=
  Record_reduce input FormData_new
    (fun acc value key =>
       match value with
       | Many items =>
           Array_forEach items
             (fun acc item =>
                if is_nullish item then acc
                else append key (coerce item) acc)
             acc
       | Single value =>
           if is_nullish value then acc
           else append key (coerce value) acc
       end).

(** *** Validation issues *)

(** [unknown]: any value; [Info]: what a node carries besides [actual] and
    its children ([ast], [kind], [message], [output]). *)
Context {unknown Info : Type}.
Variable undefined : unknown.

(** [ParseResult.ParseIssue].  [actual] is [None] when the node has no
    such property. *)
Inductive ParseIssue :=
| Pointer (path : Path) (actual : option unknown) (issue : ParseIssue)
| Composite (info : Info) (actual : option unknown)
    (issues : ParseIssue + list ParseIssue)
| Refinement (info : Info) (actual : option unknown) (issue : ParseIssue)
| Transformation (info : Info) (actual : option unknown) (issue : ParseIssue)
| Leaf (tag : LeafTag) (info : Info) (actual : option unknown).

Definition own_actual (issue : ParseIssue) : option unknown :=
  match issue with
  | Pointer _ a _
  | Composite _ a _
  | Refinement _ a _
  | Transformation _ a _
  | Leaf _ _ a => a
  end.

(** Reading a property that may be missing. *)
Definition or_undefined (o : option unknown) : unknown :=
  match o with
  | Some a => a
  | None => undefined
  end.

Fixpoint collectActualValues (issue : ParseIssue) (path : list PropertyKey)
  : list (string * unknown) :=
  let actual := or_undefined (own_actual issue) in
  let key := join "." path in
  match issue with
  | Pointer issue_path issue_actual child =>
      let pathItems :=
        match issue_path with
        | PathArray ks => ks
        | PathSingle k => [k]
        end in
      let newPath := path ++ pathItems in
      let newKey := join "." newPath in
      [(newKey, or_undefined issue_actual)] ++ collectActualValues child newPath
  | Composite _ _ issues =>
      let currentEntry := (key, actual) in
      let childEntries :=
        match issues with
        | inr issueList =>
            flat_map (fun childIssue => collectActualValues childIssue path)
              issueList
        | inl single =>
            flat_map (fun childIssue => collectActualValues childIssue path)
              [single]
        end in
      currentEntry :: childEntries
  | Refinement _ _ child =>
      [(key, actual)] ++ collectActualValues child path
  | Transformation _ _ child =>
      [(key, actual)] ++ collectActualValues child path
  | Leaf _ _ _ => [(key, actual)]
  end.

(** [new Map(entries)] and [map.get(key)] *)
Definition Map_new (entries : list (string * unknown)) : gmap string unknown :=
  fold_left (fun m '(k, v) => <[k := v]> m) entries ∅.

Definition Map_get (m : gmap string unknown) (key : string) : unknown :=
  match m !! key with
  | Some v => v
  | None => undefined
  end.

(** [ParseResult.ArrayFormatterIssue] *)
Record ArrayFormatterIssue := {
  issue_tag : string;
  issue_path : list PropertyKey;
  issue_message : string
}.

Record FormModelFormatterIssueValue := {
  actual : unknown;
  message : string
}.

Definition FormModelFormatterResult := obj FormModelFormatterIssueValue.

(** [ParseResult.ArrayFormatter.formatIssue]; it cannot fail. *)
Variable ArrayFormatter_formatIssue :
  ParseIssue -> Effect (list ArrayFormatterIssue) Empty_set.

(** The fold of [formatIssue] over the formatted issues. *)
Definition mergeIssues (actualMap : gmap string unknown)
  (arrayIssues : list ArrayFormatterIssue) : FormModelFormatterResult :=
  fold_left
    (fun result arrayIssue =>
       let key := join "." (issue_path arrayIssue) in
       let actual := Map_get actualMap key in
       obj_set key {| actual := actual; message := issue_message arrayIssue |}
         result)
    arrayIssues empty.

Definition formatIssue (issue : ParseIssue)
  : Effect FormModelFormatterResult Empty_set :=
  let actualEntries := collectActualValues issue [] in
  let actualMap := Map_new actualEntries in
  Effect.map (ArrayFormatter_formatIssue issue)
    (fun arrayIssues => mergeIssues actualMap arrayIssues).

(** [ParseResult.ParseError] *)
Record ParseError := { issue : ParseIssue }.

Definition formatError (error : ParseError)
  : Effect FormModelFormatterResult Empty_set :=
  formatIssue (issue error).

(** *** Field and model descriptors *)

(** [Schema.Schema<A, I, R>] with its encoded type [I]. *)
Variable Schema : Type -> EncodedType -> Type.

(** The type [FormFieldModelSchema<A, I extends FormDataCoercibleValue, R>] *)
Record FormFieldModelSchemaT (A : Type) (I : EncodedType) := {
  I_extends : extends_FormDataCoercibleValue I = true;
  schema : Schema A I
}.
Arguments schema {A I}.

(** The function [FormFieldModelSchema] *)
Definition FormFieldModelSchema {A : Type} {I : EncodedType}
  (I_extends : extends_FormDataCoercibleValue I = true)
  (schema : Schema A I) : FormFieldModelSchemaT A I :=
  {| I_extends := I_extends; schema := schema |}.

Definition AnySchema := { A : Type & { I : EncodedType & Schema A I } }.

(** [FormFieldModelSchema<any, any, any>] *)
Definition AnyField :=
  { A : Type & { I : EncodedType & FormFieldModelSchemaT A I } }.

Definition any_field {A : Type} {Enc : EncodedType}
  (field : FormFieldModelSchemaT A Enc) : AnyField :=
  existT A (existT Enc field).

Definition field_schema (f : AnyField) : AnySchema :=
  let '(existT A (existT Enc field)) := f in
  existT A (existT Enc (schema field)).

Definition FormModelSchemaFields := obj AnyField.

Record FormModelSchemaT := { fields : FormModelSchemaFields }.

Definition FormModelSchema (fields : FormModelSchemaFields) : FormModelSchemaT :=
  {| fields := fields |}.

(** *** Decoding a form model *)

(** The schema library: struct composition, [Schema.transform] from
    [schemaFromSelf], and [Schema.decode] on the resulting schema, whose
    decoded values have type [Model]. *)
Context {Model StructSchema FormDataSchema : Type}.
Variable Schema_Struct : obj AnySchema -> StructSchema.
Variable Schema_transform_fromSelf :
  StructSchema -> (FormData -> FormDataRecord) -> (FormDataRecord -> FormData) ->
  FormDataSchema.
Variable Schema_decode : FormDataSchema -> FormData -> Effect Model ParseError.

Definition schemaRecord (schema : StructSchema) : FormDataSchema :=
  Schema_transform_fromSelf schema
    (fun fromA => toRecord fromA)
    (fun toI => fromFormDataRecord toI).

(** A failure channel of type [never] fits any success type. *)
Definition never_succeeds {A E} (self : Effect Empty_set E) : Effect A E :=
  match self with
  | Success a => match a with end
  | Failure e => Failure e
  end.

Definition decodeFormModel (formModelSchema : FormModelSchemaT)
  (formData : FormData) : Effect Model FormModelFormatterResult :=
  let fields := Record_map (fields formModelSchema) field_schema in
  let fieldsSchema := Schema_Struct fields in
  let formDataSchema := schemaRecord fieldsSchema in
  Effect.flatMap
    (Effect.catchAll (Schema_decode formDataSchema formData)
       (fun error => never_succeeds (Effect.flip (formatError error))))
    (fun decoded => Effect.succeed decoded).

(** *** Reading aids for the statements below *)

(** [Array.isArray(issue.path) ? issue.path : [issue.path]] *)
Definition pathItems_of (p : Path) : list PropertyKey :=
  match p with
  | PathArray ks => ks
  | PathSingle k => [k]
  end.

(** [Array.isArray(issue.issues) ? issue.issues : [issue.issues]] *)
Definition issueList_of (issues : ParseIssue + list ParseIssue)
  : list ParseIssue :=
  match issues with
  | inr issueList => issueList
  | inl single => [single]
  end.

(** The path segments of every node of an issue tree, in the order in
    which the collector visits the nodes. *)
Fixpoint nodePaths (issue : ParseIssue) (path : list PropertyKey)
  : list (list PropertyKey) :=
  match issue with
  | Pointer p _ child =>
      (path ++ pathItems_of p) :: nodePaths child (path ++ pathItems_of p)
  | Composite _ _ issues =>
      path ::
        match issues with
        | inr issueList => flat_map (fun c => nodePaths c path) issueList
        | inl single => flat_map (fun c => nodePaths c path) [single]
        end
  | Refinement _ _ child => path :: nodePaths child path
  | Transformation _ _ child => path :: nodePaths child path
  | Leaf _ _ _ => [path]
  end.

(** The value of the last entry stored under [key]. *)
Fixpoint last_entry {A} (key : string) (entries : list (string * A))
  : option A :=
  match entries with
  | [] => None
  | (k, v) :: rest =>
      match last_entry key rest with
      | Some w => Some w
      | None => if String.eqb k key then Some v else None
      end
  end.

(** The [actual] of the leaf that is collected last below a node, when the
    way to it passes no Pointer: the child of a refinement or a
    transformation, the last child of a composite. *)
Fixpoint nested_leaf (issue : ParseIssue) : option (option unknown) :=
  match issue with
  | Refinement _ _ child => nested_leaf child
  | Transformation _ _ child => nested_leaf child
  | Composite _ _ issues =>
      match issues with
      | inl single => nested_leaf single
      | inr issueList =>
          (fix last_leaf (l : list ParseIssue) : option (option unknown) :=
             match l with
             | [] => None
             | c :: rest =>
                 match rest with
                 | [] => nested_leaf c
                 | _ :: _ => last_leaf rest
                 end
             end) issueList
      end
  | Leaf _ _ a => Some a
  | Pointer _ _ _ => None
  end.

Definition issue_key (arrayIssue : ArrayFormatterIssue) : string :=
  join "." (issue_path arrayIssue).

Definition keyed_messages (arrayIssues : list ArrayFormatterIssue)
  : list (string * string) :=
  map (fun arrayIssue => (issue_key arrayIssue, issue_message arrayIssue))
    arrayIssues.

(** The entries that one record slot contributes to the form data. *)
Definition record_entries (key : string) (value : FormDataCoercibleValue)
  : list (string * FormDataEntryValue) :=
  match value with
  | Single v => if is_nullish v then [] else [(key, coerce v)]
  | Many items =>
      map (fun item => (key, coerce item))
        (List.filter (fun item => negb (is_nullish item)) items)
  end.

(** [values.length === 1 ? values[0] : [...values]] *)
Definition collapse (values : list FormDataEntryValue) : FormDataCoercibleValue :=
  match values with
  | [value] => Single (of_entry value)
  | _ => Many (map of_entry values)
  end.

(** Nothing [null] or [undefined] in a record slot. *)
Definition has_no_null (value : FormDataCoercibleValue) : bool :=
  match value with
  | Single v => negb (is_nullish v)
  | Many items => forallb (fun item => negb (is_nullish item)) items
  end.

(** A string or a file: the values of type [FormDataEntryValue]. *)
Definition is_entry_value (v : JsValue) : bool :=
  match v with
  | JsString _ | JsFile _ => true
  | _ => false
  end.

(** A record slot that [toRecord] can produce: a string, a file, or an array
    of at least two of them. *)
Definition is_grouped_value (value : FormDataCoercibleValue) : bool :=
  match value with
  | Single v => is_entry_value v
  | Many items => (2 <=? length items)%nat && forallb is_entry_value items
  end.

Definition named_keys (ks : list string) : list string :=
  List.filter (fun k => negb (is_array_index k)) ks.

Definition index_keys (ks : list string) : list string :=
  List.filter is_array_index ks.

(** Two array indices in ascending numeric order. *)
Definition index_lt (k1 k2 : string) : Prop :=
  match array_index k1, array_index k2 with
  | Some n1, Some n2 => (n1 < n2)%N
  | _, _ => False
  end.

(** *** The example route ([example/app/routes/home.tsx]) *)

(** [name_schema] stands for the schema of the name field,
    [Schema.NonEmptyString] with [Schema.minLength(10)] and its message, and
    [data_name] for reading [data.name] of a decoded model. *)
Definition NameField (name_schema : Schema string TString)
  : FormFieldModelSchemaT string TString :=
  FormFieldModelSchema (I := TString) eq_refl name_schema.

Definition MyForm (name_schema : Schema string TString) : FormModelSchemaT :=
  FormModelSchema [ ("name", any_field (NameField name_schema)) ].

(** [PageModel["form"]["name"]] *)
Record NameFieldModel := {
  field_id : string;
  field_label : string;
  field_name : string;
  field_placeholder : string;
  field_defaultValue : unknown;
  field_error : option string
}.

Inductive PageModel :=
| FormPage (form_name : NameFieldModel)
| SuccessPage (formData_name : string).

(** [Effect.runPromise] of an effect that cannot fail. *)
Definition Effect_runPromise {A} (self : Effect A Empty_set) : A :=
  match self with
  | Success a => a
  | Failure e => match e with end
  end.

Definition action (name_schema : Schema string TString)
  (data_name : Model -> string) (formData : FormData) : PageModel :=
  let model :=
    Effect_runPromise
      (Effect.catchAll
         (Effect.map (decodeFormModel (MyForm name_schema) formData)
            (fun data => SuccessPage (data_name data)))
         (fun error =>
            Effect.succeed
              (FormPage
                 {| field_id := "my-name-field";
                    field_label := "Enter your name";
                    field_name := "name";
                    field_placeholder := "John Doe";
                    field_defaultValue :=
                      match obj_get "name" error with
                      | Some value => actual value
                      | None => undefined
                      end;
                    field_error :=
                      match obj_get "name" error with
                      | Some value => Some (message value)
                      | None => None
                      end |}))) in
  model.

Definition loader : PageModel :=
  FormPage
    {| field_id := "my-name-field";
       field_label := "Enter your name";
       field_name := "name";
       field_placeholder := "John Doe";
       field_defaultValue := undefined;
       field_error := None |}.

(** *** More reading aids *)

(** A record slot that writes at least one entry. *)
Definition has_value (value : FormDataCoercibleValue) : bool :=
  match value with
  | Single v => negb (is_nullish v)
  | Many items => existsb (fun item => negb (is_nullish item)) items
  end.

(** The file is the value of the slot, or one of its items. *)
Definition holds_file (f : File) (value : FormDataCoercibleValue) : Prop :=
  match value with
  | Single v => v = JsFile f
  | Many items => In (JsFile f) items
  end.

(** The nodes of an issue tree, in the order of the collector. *)
Fixpoint subissues (issue : ParseIssue) : list ParseIssue :=
  issue ::
    match issue with
    | Pointer _ _ child => subissues child
    | Composite _ _ issues =>
        match issues with
        | inr issueList => flat_map subissues issueList
        | inl single => flat_map subissues [single]
        end
    | Refinement _ _ child => subissues child
    | Transformation _ _ child => subissues child
    | Leaf _ _ _ => []
    end.

Definition is_pointer (issue : ParseIssue) : bool :=
  match issue with
  | Pointer _ _ _ => true
  | _ => false
  end.

(** The schema that [decodeFormModel] hands to the validator. *)
Definition formDataSchema_of (formModelSchema : FormModelSchemaT)
  : FormDataSchema :=
  schemaRecord (Schema_Struct (Record_map (fields formModelSchema) field_schema)).

(** A key that assignment stores: any but the name of the prototype
    accessor. *)
Definition is_own_key (k : string) : bool := negb (String.eqb k proto).

(** *** Sample data *)

Definition sample_record (file : File) : FormDataRecord :=
  [ ("0", Single (JsString "zero"));
    ("name", Single (JsString "John"));
    ("pets", Many [JsString "Fido"; JsString "Rex"]);
    ("file", Single (JsFile file)) ].

Definition singleton_record : FormDataRecord :=
  [ ("pets", Many [JsString "Fido"]) ].

Definition lossy_record (file : File) (other : Other) : FormDataRecord :=
  [ ("agree", Single (JsOther other));
    ("pets", Many [JsString "Fido"; JsNull; JsFile file]);
    ("gone", Single JsUndefined) ].

Definition index_submission : FormData :=
  [ ("b", EntryString "x"); ("1", EntryString "y") ].

Definition duplicate_issues : list ArrayFormatterIssue :=
  [ {| issue_tag := "Type"; issue_path := [KString "a"];
       issue_message := "first" |};
    {| issue_tag := "Type"; issue_path := [KString "a"];
       issue_message := "second" |} ].

(** An issue tree of the shape of the failing decode of [age=17] against a
    number-from-string field refined to be at least 18: the transformation
    and the composite of the record, the Pointer of the field, the
    refinement with the text that was sent and below it the leaf with the
    number that was read. *)
Definition age_issue (info : Info) (form record text number : unknown)
  : ParseIssue :=
  Transformation info (Some form)
    (Composite info (Some record)
       (inl (Pointer (PathSingle (KString "age")) (Some record)
               (Refinement info (Some text)
                  (Leaf TypeTag info (Some number)))))).

(** An issue tree with a transformation below the Pointer of a field: the
    transformation reports [text] and its nested leaf [number]. *)
Definition nested_issue (info : Info) (record text number : unknown)
  : ParseIssue :=
  Composite info (Some record)
    (inr [ Pointer (PathSingle (KString "age")) (Some record)
             (Transformation info (Some text)
                (Leaf TypeTag info (Some number))) ]).

(** A record with an own key [__proto__], as [JSON.parse] or a computed
    key creates it, holding an array of one string. *)
Definition proto_record : FormDataRecord :=
  [ (proto, Many [JsString "x"]) ].

(** A submission with an entry named [__proto__]. *)
Definition proto_submission : FormData :=
  [ ("a", EntryString "1"); (proto, EntryString "x");
    ("b", EntryString "2") ].

Definition proto_issues : list ArrayFormatterIssue :=
  [ {| issue_tag := "Type"; issue_path := [KString proto];
       issue_message := "first" |} ].

Definition age_formatter (_ : ParseIssue)
  : Effect (list ArrayFormatterIssue) Empty_set :=
  Success
    [ {| issue_tag := "Refinement"; issue_path := [KString "age"];
         issue_message := "Must be 18 or over! Got: 17" |} ].

Definition age_model (schema : Schema N TString) : FormModelSchemaT :=
  FormModelSchema
    [ ("age", any_field (FormFieldModelSchema (I := TString) eq_refl schema)) ].

Definition interleaved_submission : FormData :=
  [ ("a", EntryString "1"); ("b", EntryString "2"); ("a", EntryString "3") ].

Definition grouped_submission : FormData :=
  [ ("a", EntryString "1"); ("a", EntryString "3"); ("b", EntryString "2") ].

(** ** Facts about the issue collector *)

Lemma ParseIssue_induction (P : ParseIssue -> Prop) :
  (forall p a child, P child -> P (Pointer p a child)) ->
  (forall info a single, P single -> P (Composite info a (inl single))) ->
  (forall info a issueList,
      Forall P issueList -> P (Composite info a (inr issueList))) ->
  (forall info a child, P child -> P (Refinement info a child)) ->
  (forall info a child, P child -> P (Transformation info a child)) ->
  (forall tag info a, P (Leaf tag info a)) ->
  forall issue, P issue.
Proof.
  intros HP HC1 HCn HR HT HL.
  fix IH 1.
  intros [p a child | info a [single | issueList] | info a child
         | info a child | tag info a].
  - apply HP, IH.
  - apply HC1, IH.
  - apply HCn.
    induction issueList as [| c cs IHcs]; constructor; [apply IH | exact IHcs].
  - apply HR, IH.
  - apply HT, IH.
  - apply HL.
Qed.

Lemma collect_composite info a issues path :
  collectActualValues (Composite info a issues) path =
  (join "." path, or_undefined a)
    :: flat_map (fun c => collectActualValues c path) (issueList_of issues).
Proof. destruct issues; reflexivity. Qed.

Lemma flat_map_keys (cs : list ParseIssue) path :
  Forall (fun c => forall path,
              map fst (collectActualValues c path)
              = map (join ".") (nodePaths c path)) cs ->
  map fst (flat_map (fun c => collectActualValues c path) cs)
  = map (join ".") (flat_map (fun c => nodePaths c path) cs).
Proof.
  induction 1 as [| c cs Hc _ IH]; simpl; [reflexivity |].
  rewrite !map_app, Hc, IH. reflexivity.
Qed.

Lemma collect_keys (i : ParseIssue) :
  forall path,
    map fst (collectActualValues i path)
    = map (join ".") (nodePaths i path).
Proof.
  induction i as [p a child IH | info a single IH | info a issueList IH
                 | info a child IH | info a child IH | tag info a]
    using ParseIssue_induction; intros path; simpl.
  - rewrite IH. reflexivity.
  - rewrite !app_nil_r, IH. reflexivity.
  - f_equal. apply flat_map_keys. exact IH.
  - rewrite IH. reflexivity.
  - rewrite IH. reflexivity.
  - reflexivity.
Qed.

Lemma Map_new_from (entries : list (string * unknown)) :
  forall (m : gmap string unknown) key,
    fold_left (fun m '(k, v) => <[k := v]> m) entries m !! key
    = match last_entry key entries with
      | Some v => Some v
      | None => m !! key
      end.
Proof.
  induction entries as [| [k v] rest IH]; intros m key; simpl; [reflexivity |].
  rewrite IH. destruct (last_entry key rest); [reflexivity |].
  destruct (String.eqb_spec k key) as [-> | Hne].
  - apply lookup_insert_eq.
  - apply lookup_insert_ne. exact Hne.
Qed.

Lemma Map_new_lookup entries key :
  Map_new entries !! key = last_entry key entries.
Proof.
  unfold Map_new. rewrite Map_new_from.
  destruct (last_entry key entries); [reflexivity | apply lookup_empty].
Qed.

Lemma last_entry_app {A} key (l1 l2 : list (string * A)) :
  last_entry key (l1 ++ l2)
  = match last_entry key l2 with
    | Some v => Some v
    | None => last_entry key l1
    end.
Proof.
  induction l1 as [| [k v] l1 IH]; simpl.
  - destruct (last_entry key l2); reflexivity.
  - rewrite IH. destruct (last_entry key l2); reflexivity.
Qed.

Lemma nested_leaf_last child :
  forall path a,
    nested_leaf child = Some a ->
    last_entry (join "." path) (collectActualValues child path)
    = Some (or_undefined a).
Proof.
  induction child as [p a child IH | info a single IH | info a issueList IH
                     | info a child IH | info a child IH | tag info a]
    using ParseIssue_induction; intros path b Hleaf; simpl in Hleaf.
  - discriminate.
  - simpl. rewrite app_nil_r, (IH path b Hleaf). reflexivity.
  - rewrite collect_composite. cbn [last_entry issueList_of].
    assert (Hlast : last_entry (join "." path)
                      (flat_map (fun c => collectActualValues c path) issueList)
                    = Some (or_undefined b)).
    { induction issueList as [| c rest IHrest]; [discriminate |].
      apply List.Forall_cons_iff in IH as [IHc IHall].
      destruct rest as [| c' rest'].
      - simpl. rewrite app_nil_r. now apply IHc.
      - change (flat_map (fun c => collectActualValues c path) (c :: c' :: rest'))
          with (collectActualValues c path
                  ++ flat_map (fun c => collectActualValues c path) (c' :: rest')).
        rewrite last_entry_app, (IHrest IHall Hleaf). reflexivity. }
    now rewrite Hlast.
  - simpl. rewrite (IH path b Hleaf). reflexivity.
  - simpl. rewrite (IH path b Hleaf). reflexivity.
  - injection Hleaf as ->. simpl. rewrite String.eqb_refl. reflexivity.
Qed.

(** ** Facts about objects *)

Lemma obj_get_None {V} (k : string) (o : obj V) :
  obj_get k o = None <-> ~ In k (Object_keys o).
Proof.
  induction o as [| [k' v'] rest IH]; simpl.
  - tauto.
  - destruct (String.eqb_spec k' k) as [-> | Hne].
    + split; [discriminate | tauto].
    + rewrite IH. tauto.
Qed.

Lemma obj_get_Some_In {V} (k : string) (v : V) (o : obj V) :
  obj_get k o = Some v -> In (k, v) o.
Proof.
  induction o as [| [k' v'] rest IH]; simpl; [discriminate |].
  destruct (String.eqb_spec k' k) as [-> | Hne].
  - intros [= ->]. now left.
  - intros H. right. exact (IH H).
Qed.

Lemma obj_get_update {V} (k k' : string) (v : V) (o : obj V) :
  obj_get k' (obj_update k v o)
  = if String.eqb k k'
    then match obj_get k o with Some _ => Some v | None => None end
    else obj_get k' o.
Proof.
  induction o as [| [k0 v0] rest IH]; simpl.
  - destruct (String.eqb k k'); reflexivity.
  - destruct (String.eqb_spec k0 k) as [-> | Hne]; simpl.
    + destruct (String.eqb_spec k k'); reflexivity.
    + destruct (String.eqb_spec k0 k') as [-> | Hne'].
      * destruct (String.eqb_spec k k'); [congruence | reflexivity].
      * exact IH.
Qed.

Lemma obj_get_insert_index {V} n (k k' : string) (v : V) (o : obj V) :
  obj_get k o = None ->
  obj_get k' (obj_insert_index n k v o)
  = if String.eqb k k' then Some v else obj_get k' o.
Proof.
  induction o as [| [k0 v0] rest IH]; simpl; intros Hk.
  - destruct (String.eqb k k'); reflexivity.
  - destruct (String.eqb_spec k0 k) as [-> | Hne]; [discriminate |].
    destruct (array_index k0) as [n0 |]; [destruct (n0 <? n)%N |]; simpl.
    + destruct (String.eqb_spec k0 k') as [-> | Hne'].
      * destruct (String.eqb_spec k k'); [congruence | reflexivity].
      * exact (IH Hk).
    + destruct (String.eqb k k'); reflexivity.
    + destruct (String.eqb k k'); reflexivity.
Qed.

Lemma obj_get_app {V} (k : string) (o1 o2 : obj V) :
  obj_get k (o1 ++ o2)
  = match obj_get k o1 with Some v => Some v | None => obj_get k o2 end.
Proof.
  induction o1 as [| [k0 v0] rest IH]; simpl; [reflexivity |].
  destruct (String.eqb k0 k); [reflexivity | exact IH].
Qed.

(** Reading after the property [k] was created or overwritten. *)
Lemma obj_get_define {V} (k k' : string) (v : V) (o : obj V) :
  obj_get k' (obj_define k v o) = if String.eqb k k' then Some v else obj_get k' o.
Proof.
  unfold obj_define, hasOwnProperty.
  destruct (obj_get k o) as [w |] eqn:Hk.
  - rewrite obj_get_update, Hk. reflexivity.
  - destruct (array_index k) as [n |].
    + apply obj_get_insert_index. exact Hk.
    + rewrite obj_get_app. simpl.
      destruct (String.eqb_spec k k') as [<- | Hne].
      * rewrite Hk. reflexivity.
      * destruct (obj_get k' o); reflexivity.
Qed.

Lemma obj_keys_get {V} (k : string) (o : obj V) :
  In k (Object_keys o) <-> obj_get k o <> None.
Proof.
  rewrite obj_get_None.
  destruct (in_dec String.string_dec k (Object_keys o)); tauto.
Qed.

Lemma obj_keys_define {V} (k k' : string) (v : V) (o : obj V) :
  In k' (Object_keys (obj_define k v o)) <-> k' = k \/ In k' (Object_keys o).
Proof.
  rewrite !obj_keys_get, obj_get_define.
  destruct (String.eqb_spec k k') as [-> | Hne].
  - split; [now left | discriminate].
  - split; [now right | intros [-> | H]; [congruence | exact H]].
Qed.

(** ** The enumeration order of objects *)

Lemma array_index_canonical (k : string) (n : N) :
  array_index k = Some n -> k = N_to_string n.
Proof.
  unfold array_index. destruct (NilZero.uint_of_string k) as [u |]; [| discriminate].
  simpl. destruct (N.of_uint u <? 4294967295)%N; [| discriminate]. simpl.
  destruct (String.eqb_spec (N_to_string (N.of_uint u)) k) as [Heq | Hne];
    [| discriminate].
  intros [= <-]. symmetry. exact Heq.
Qed.

Lemma array_index_inj (k1 k2 : string) (n : N) :
  array_index k1 = Some n -> array_index k2 = Some n -> k1 = k2.
Proof.
  intros H1 H2. apply array_index_canonical in H1, H2. congruence.
Qed.

Lemma js_before_trans (a b c : string) :
  js_before a b = true -> js_before b c = true -> js_before a c = true.
Proof.
  unfold js_before.
  destruct (array_index a) as [na |], (array_index b) as [nb |],
    (array_index c) as [nc |]; try reflexivity; try discriminate.
  rewrite !N.ltb_lt. lia.
Qed.

Lemma js_before_named (a b : string) :
  array_index b = None -> js_before a b = true.
Proof.
  intros Hb. unfold js_before. rewrite Hb. destruct (array_index a); reflexivity.
Qed.

Lemma js_keys_ok_cons (k : string) (rest : list string) :
  js_keys_ok (k :: rest) = true
  <-> ~ In k rest
      /\ (forall b, In b rest -> js_before k b = true)
      /\ js_keys_ok rest = true.
Proof.
  simpl. rewrite !andb_true_iff, negb_true_iff, forallb_forall.
  assert (Hex : existsb (String.eqb k) rest = false <-> ~ In k rest).
  { rewrite <- not_true_iff_false, existsb_exists. split.
    - intros H Hin. apply H. exists k. split; [exact Hin | apply String.eqb_refl].
    - intros H [x [Hin Heq]]. apply String.eqb_eq in Heq. subst x. tauto. }
  rewrite Hex. tauto.
Qed.

Lemma js_keys_ok_snoc (ks : list string) (k : string) :
  js_keys_ok (ks ++ [k]) = true
  <-> js_keys_ok ks = true
      /\ ~ In k ks
      /\ (forall a, In a ks -> js_before a k = true).
Proof.
  induction ks as [| k0 ks IH].
  - simpl. split; [intros _; repeat split; tauto | reflexivity].
  - change ((k0 :: ks) ++ [k]) with (k0 :: (ks ++ [k])).
    rewrite !js_keys_ok_cons, IH. split.
    + intros (Hnin & Hbefore & Hok & Hk & Hall). repeat split.
      * intros Hin. apply Hnin, in_or_app. now left.
      * intros b Hb. apply Hbefore, in_or_app. now left.
      * exact Hok.
      * intros [-> | Hin]; [| tauto]. apply Hnin, in_or_app. right. now left.
      * intros a [<- | Ha]; [| now apply Hall].
        apply Hbefore, in_or_app. right. now left.
    + intros ((Hnin & Hbefore & Hok) & Hk & Hall). repeat split.
      * intros Hin. apply in_app_or in Hin as [Hin | [<- | []]]; [tauto |].
        apply Hk. now left.
      * intros b Hb. apply in_app_or in Hb as [Hb | [<- | []]];
          [now apply Hbefore | apply Hall; now left].
      * exact Hok.
      * intros Hin. apply Hk. now right.
      * intros a Ha. apply Hall. now right.
Qed.

Lemma Object_keys_app {V} (o1 o2 : obj V) :
  Object_keys (o1 ++ o2) = Object_keys o1 ++ Object_keys o2.
Proof. apply map_app. Qed.

Lemma Object_keys_update {V} (k : string) (v : V) (o : obj V) :
  Object_keys (obj_update k v o) = Object_keys o.
Proof.
  induction o as [| [k0 v0] rest IH]; simpl; [reflexivity |].
  destruct (String.eqb k0 k); simpl; [reflexivity | now rewrite IH].
Qed.

(** A new index key lands where the order puts it. *)
Lemma insert_index_ok {V} (n : N) (k : string) (v : V) (o : obj V) :
  array_index k = Some n ->
  ~ In k (Object_keys o) ->
  js_object o = true ->
  js_object (obj_insert_index n k v o) = true.
Proof.
  intros Hk. unfold js_object.
  induction o as [| [k0 v0] rest IH]; intros Hnin Hok; [reflexivity |].
  simpl in Hnin. change (Object_keys ((k0, v0) :: rest)) with (k0 :: Object_keys rest) in Hok.
  apply js_keys_ok_cons in Hok as (Hnin0 & Hbefore0 & Hrest).
  assert (Hne : k0 <> k) by tauto.
  assert (Hninr : ~ In k (Object_keys rest)) by tauto.
  assert (Hfront : js_before k k0 = true ->
                   js_keys_ok (k :: k0 :: Object_keys rest) = true).
  { intros Hkk0. apply js_keys_ok_cons. repeat split.
    - intros [-> | Hin]; tauto.
    - intros b [<- | Hb]; [exact Hkk0 |].
      apply (js_before_trans k k0 b Hkk0). now apply Hbefore0.
    - apply js_keys_ok_cons. tauto. }
  simpl. destruct (array_index k0) as [n0 |] eqn:Hk0.
  - destruct (n0 <? n)%N eqn:Hlt.
    + change (js_keys_ok (k0 :: Object_keys (obj_insert_index n k v rest)) = true).
      apply js_keys_ok_cons. repeat split.
      * intros Hin.
        assert (Hin' : In k0 (Object_keys (obj_define k v rest))).
        { unfold obj_define, hasOwnProperty.
          destruct (obj_get k rest) eqn:Hget;
            [apply obj_get_None in Hninr; congruence |].
          rewrite Hk. exact Hin. }
        apply obj_keys_define in Hin' as [-> | Hin']; tauto.
      * intros b Hb.
        assert (Hb' : In b (Object_keys (obj_define k v rest))).
        { unfold obj_define, hasOwnProperty.
          destruct (obj_get k rest) eqn:Hget;
            [apply obj_get_None in Hninr; congruence |].
          rewrite Hk. exact Hb. }
        apply obj_keys_define in Hb' as [-> | Hb']; [| now apply Hbefore0].
        unfold js_before. rewrite Hk0, Hk. exact Hlt.
      * apply IH; assumption.
    + apply Hfront. unfold js_before. rewrite Hk, Hk0.
      apply N.ltb_lt. apply N.ltb_ge in Hlt.
      assert (n0 <> n) by (intros ->; apply Hne; eapply array_index_inj; eauto).
      lia.
  - apply Hfront. unfold js_before. rewrite Hk, Hk0. reflexivity.
Qed.

(** Creating a property keeps an object an object. *)
Lemma obj_define_ok {V} (k : string) (v : V) (o : obj V) :
  js_object o = true -> js_object (obj_define k v o) = true.
Proof.
  intros Hok. unfold obj_define, hasOwnProperty.
  destruct (obj_get k o) as [w |] eqn:Hget.
  - unfold js_object. rewrite Object_keys_update. exact Hok.
  - apply obj_get_None in Hget.
    destruct (array_index k) as [n |] eqn:Hk.
    + apply insert_index_ok; assumption.
    + unfold js_object. rewrite Object_keys_app. apply js_keys_ok_snoc.
      repeat split; [exact Hok | exact Hget |].
      intros a _. apply js_before_named. exact Hk.
Qed.

(** Creating the last key of an object appends it. *)
Lemma obj_define_last {V} (k : string) (v : V) (o : obj V) :
  js_object (o ++ [(k, v)]) = true -> obj_define k v o = o ++ [(k, v)].
Proof.
  unfold js_object. rewrite Object_keys_app. intros Hok.
  change (Object_keys [(k, v)]) with [k] in Hok.
  apply js_keys_ok_snoc in Hok as (_ & Hnin & Hbefore).
  unfold obj_define, hasOwnProperty.
  assert (Hget : obj_get k o = None) by (apply obj_get_None; exact Hnin).
  rewrite Hget. clear Hget Hnin.
  destruct (array_index k) as [n |] eqn:Hk; [| reflexivity].
  induction o as [| [k0 v0] rest IH]; [reflexivity |].
  simpl. assert (H0 : js_before k0 k = true) by (apply Hbefore; now left).
  unfold js_before in H0. rewrite Hk in H0.
  destruct (array_index k0) as [n0 |]; [| discriminate].
  rewrite H0. f_equal. apply IH. intros a Ha. apply Hbefore. now right.
Qed.

Lemma obj_update_last {V} (k : string) (v w : V) (o : obj V) :
  ~ In k (Object_keys o) ->
  obj_update k v (o ++ [(k, w)]) = o ++ [(k, v)].
Proof.
  induction o as [| [k0 v0] rest IH]; simpl; intros Hnin.
  - rewrite String.eqb_refl. reflexivity.
  - destruct (String.eqb_spec k0 k) as [-> | Hne]; [tauto |].
    f_equal. apply IH. tauto.
Qed.

(** In an object, the array indices come first. *)
Lemma js_keys_ok_split (ks : list string) :
  js_keys_ok ks = true ->
  ks = index_keys ks ++ named_keys ks.
Proof.
  induction ks as [| k rest IH]; [reflexivity |].
  intros Hok. apply js_keys_ok_cons in Hok as (_ & Hbefore & Hrest).
  unfold index_keys, named_keys in *.
  simpl. destruct (is_array_index k) eqn:Hidx; simpl.
  - f_equal. exact (IH Hrest).
  - assert (Hk : array_index k = None).
    { unfold is_array_index in Hidx.
      destruct (array_index k); [discriminate | reflexivity]. }
    assert (Hnamed : forall b, In b rest -> is_array_index b = false).
    { intros b Hb. specialize (Hbefore b Hb). unfold js_before in Hbefore.
      rewrite Hk in Hbefore. unfold is_array_index.
      destruct (array_index b); [discriminate | reflexivity]. }
    assert (Hnone : List.filter is_array_index rest = []).
    { clear -Hnamed. induction rest as [| b rest IH]; [reflexivity |].
      simpl. rewrite (Hnamed b) by now left.
      apply IH. intros c Hc. apply Hnamed. now right. }
    assert (Hall : List.filter (fun k => negb (is_array_index k)) rest = rest).
    { clear -Hnamed. induction rest as [| b rest IH]; [reflexivity |].
      simpl. rewrite (Hnamed b) by now left. simpl. f_equal.
      apply IH. intros c Hc. apply Hnamed. now right. }
    rewrite Hnone, Hall. reflexivity.
Qed.

Lemma js_keys_ok_NoDup (ks : list string) :
  js_keys_ok ks = true -> List.NoDup ks.
Proof.
  induction ks as [| k rest IH]; [constructor |].
  intros Hok. apply js_keys_ok_cons in Hok as (Hnin & _ & Hrest).
  constructor; [exact Hnin | exact (IH Hrest)].
Qed.

Lemma js_keys_ok_index_sorted (ks : list string) :
  js_keys_ok ks = true -> StronglySorted index_lt (index_keys ks).
Proof.
  induction ks as [| k rest IH]; [constructor |].
  intros Hok. apply js_keys_ok_cons in Hok as (_ & Hbefore & Hrest).
  unfold index_keys. simpl. destruct (is_array_index k) eqn:Hidx; [| now apply IH].
  constructor; [now apply IH |].
  apply List.Forall_forall. intros b Hb. apply List.filter_In in Hb as [Hb Hbidx].
  specialize (Hbefore b Hb). unfold js_before in Hbefore.
  unfold is_array_index in Hidx, Hbidx. unfold index_lt.
  destruct (array_index k), (array_index b); try discriminate.
  now apply N.ltb_lt.
Qed.

(** ** Assignment *)

Lemma obj_set_proto {V} (v : V) (o : obj V) :
  obj_get proto o = None -> obj_set proto v o = o.
Proof.
  intros Hnone. unfold obj_set, hasOwnProperty. now rewrite Hnone.
Qed.

Lemma obj_set_own {V} (k : string) (v : V) (o : obj V) :
  k <> proto -> obj_set k v o = obj_define k v o.
Proof.
  intros Hk. unfold obj_set.
  destruct (String.eqb_spec k proto); [congruence | reflexivity].
Qed.

(** Reading after [o[k] = v], for an object without own [__proto__]. *)
Lemma obj_get_set {V} (k k' : string) (v : V) (o : obj V) :
  obj_get proto o = None ->
  obj_get k' (obj_set k v o)
  = if String.eqb k proto then obj_get k' o
    else if String.eqb k k' then Some v else obj_get k' o.
Proof.
  intros Hnone.
  destruct (String.eqb_spec k proto) as [-> | Hk];
    [now rewrite obj_set_proto |].
  rewrite obj_set_own by exact Hk. apply obj_get_define.
Qed.

(** Assignment does not create an own [__proto__]. *)
Lemma obj_set_no_proto {V} (k : string) (v : V) (o : obj V) :
  obj_get proto o = None -> obj_get proto (obj_set k v o) = None.
Proof.
  intros Hnone. rewrite obj_get_set by exact Hnone.
  now destruct (String.eqb k proto).
Qed.

Lemma obj_keys_set {V} (k k' : string) (v : V) (o : obj V) :
  In k' (Object_keys (obj_set k v o))
  <-> (k <> proto /\ k' = k) \/ In k' (Object_keys o).
Proof.
  destruct (String.eqb_spec k proto) as [-> | Hk].
  - unfold obj_set. rewrite String.eqb_refl. unfold hasOwnProperty.
    destruct (obj_get proto o) as [w |] eqn:Hget; simpl; [| tauto].
    rewrite obj_keys_define.
    assert (Hin : In proto (Object_keys o))
      by (apply obj_keys_get; congruence).
    split; [intros [-> | H]; tauto | tauto].
  - rewrite obj_set_own, obj_keys_define by exact Hk. tauto.
Qed.

(** Assignment keeps an object an object. *)
Lemma obj_set_ok {V} (k : string) (v : V) (o : obj V) :
  js_object o = true -> js_object (obj_set k v o) = true.
Proof.
  unfold obj_set.
  destruct (String.eqb k proto && negb (hasOwnProperty k o));
    [tauto | apply obj_define_ok].
Qed.

(** Creating the last key of an object appends it. *)
Lemma obj_set_last {V} (k : string) (v : V) (o : obj V) :
  k <> proto ->
  js_object (o ++ [(k, v)]) = true -> obj_set k v o = o ++ [(k, v)].
Proof.
  intros Hk. rewrite obj_set_own by exact Hk. apply obj_define_last.
Qed.

(** ** Facts about the record codec *)

Lemma forEach_append (key : string) (items : list JsValue) :
  forall acc : FormData,
    Array_forEach items
      (fun acc item =>
         if is_nullish item then acc else append key (coerce item) acc) acc
    = acc ++ record_entries key (Many items).
Proof.
  unfold Array_forEach, record_entries.
  induction items as [| item rest IH]; intros acc; simpl.
  - now rewrite app_nil_r.
  - rewrite IH. destruct (is_nullish item); simpl; [reflexivity |].
    unfold append. now rewrite <- app_assoc.
Qed.

Lemma fromFormDataRecord_from (input : FormDataRecord) :
  forall acc : FormData,
    Record_reduce input acc
      (fun acc value key =>
         match value with
         | Many items =>
             Array_forEach items
               (fun acc item =>
                  if is_nullish item then acc
                  else append key (coerce item) acc)
               acc
         | Single value =>
             if is_nullish value then acc
             else append key (coerce value) acc
         end)
    = acc ++ flat_map (fun '(key, value) => record_entries key value) input.
Proof.
  unfold Record_reduce, Object_entries.
  induction input as [| [key value] rest IH]; intros acc; simpl.
  - now rewrite app_nil_r.
  - rewrite IH. destruct value as [v | items].
    + simpl. destruct (is_nullish v); [reflexivity |].
      unfold append. now rewrite <- app_assoc.
    + rewrite forEach_append. now rewrite <- app_assoc.
Qed.

Lemma fromFormDataRecord_flat (input : FormDataRecord) :
  fromFormDataRecord input
  = flat_map (fun '(key, value) => record_entries key value) input.
Proof. unfold fromFormDataRecord. now rewrite fromFormDataRecord_from. Qed.

Lemma fromFormDataRecord_app (r1 r2 : FormDataRecord) :
  fromFormDataRecord (r1 ++ r2) = fromFormDataRecord r1 ++ fromFormDataRecord r2.
Proof. rewrite !fromFormDataRecord_flat. apply flat_map_app. Qed.

Lemma record_entries_key key value e :
  In e (record_entries key value) -> fst e = key.
Proof.
  destruct value as [v | items]; simpl.
  - destruct (is_nullish v); [intros [] | intros [<- | []]; reflexivity].
  - rewrite in_map_iff. intros (item & <- & _). reflexivity.
Qed.

Lemma fromFormDataRecord_keys (input : FormDataRecord) key :
  In key (map fst (fromFormDataRecord input)) -> In key (Object_keys input).
Proof.
  rewrite fromFormDataRecord_flat, in_map_iff. intros (e & <- & He).
  apply in_flat_map in He as ([k v] & Hin & He).
  apply record_entries_key in He. rewrite He.
  apply in_map_iff. exists (k, v). split; [reflexivity | exact Hin].
Qed.

Lemma getAll_app key (fd1 fd2 : FormData) :
  getAll key (fd1 ++ fd2) = getAll key fd1 ++ getAll key fd2.
Proof. unfold getAll. now rewrite List.filter_app, map_app. Qed.

Lemma getAll_same key value :
  getAll key (record_entries key value) = map snd (record_entries key value).
Proof.
  unfold getAll. f_equal.
  assert (H : forall l : FormData,
             (forall e, In e l -> fst e = key) ->
             List.filter (fun e => String.eqb (fst e) key) l = l).
  { induction l as [| e l IH]; intros Hl; [reflexivity |].
    simpl. rewrite (Hl e) by now left. rewrite String.eqb_refl. f_equal.
    apply IH. intros e' He'. apply Hl. now right. }
  apply H. intros e. apply record_entries_key.
Qed.

Lemma getAll_other key key' value :
  key' <> key -> getAll key (record_entries key' value) = [].
Proof.
  intros Hne. unfold getAll.
  assert (H : forall l : FormData,
             (forall e, In e l -> fst e = key') ->
             List.filter (fun e => String.eqb (fst e) key) l = []).
  { induction l as [| e l IH]; intros Hl; [reflexivity |].
    simpl. rewrite (Hl e) by now left.
    destruct (String.eqb_spec key' key); [tauto |].
    apply IH. intros e' He'. apply Hl. now right. }
  rewrite H; [reflexivity |]. intros e. apply record_entries_key.
Qed.

Lemma getAll_absent key (fd : FormData) :
  ~ In key (map fst fd) -> getAll key fd = [].
Proof.
  unfold getAll. induction fd as [| [k v] rest IH]; simpl; [reflexivity |].
  intros Hnin. destruct (String.eqb_spec k key) as [-> | Hne]; [tauto |].
  apply IH. tauto.
Qed.

Lemma getAll_fromFormDataRecord (input : FormDataRecord) key :
  js_object input = true ->
  getAll key (fromFormDataRecord input)
  = match obj_get key input with
    | Some value => map snd (record_entries key value)
    | None => []
    end.
Proof.
  unfold js_object. induction input as [| [k v] rest IH]; [reflexivity |].
  change (Object_keys ((k, v) :: rest)) with (k :: Object_keys rest).
  intros Hok. apply js_keys_ok_cons in Hok as (Hnin & _ & Hrest).
  change ((k, v) :: rest) with ([(k, v)] ++ rest) at 1.
  rewrite fromFormDataRecord_app, getAll_app.
  rewrite (fromFormDataRecord_flat [(k, v)]). simpl. rewrite app_nil_r.
  destruct (String.eqb_spec k key) as [-> | Hne].
  - rewrite getAll_same, getAll_absent; [now rewrite app_nil_r |].
    intros Hin. apply Hnin. now apply fromFormDataRecord_keys.
  - rewrite getAll_other by exact Hne. simpl. now apply IH.
Qed.

Lemma Array_groupBy_snoc {A} (self : list A) (a : A) (f : A -> string) :
  Array_groupBy (self ++ [a]) f
  = match obj_get (f a) (Array_groupBy self f) with
    | Some group => obj_set (f a) (group ++ [a]) (Array_groupBy self f)
    | None => obj_set (f a) [a] (Array_groupBy self f)
    end.
Proof. unfold Array_groupBy. rewrite fold_left_app. reflexivity. Qed.

Lemma Array_groupBy_ok {A} (self : list A) (f : A -> string) :
  js_object (Array_groupBy self f) = true.
Proof.
  induction self as [| a self IH] using rev_ind; [reflexivity |].
  rewrite Array_groupBy_snoc.
  destruct (obj_get (f a) (Array_groupBy self f)); now apply obj_set_ok.
Qed.

(** Each group holds the elements of its key, in their order. *)
Lemma is_own_key_true (k : string) : is_own_key k = true <-> k <> proto.
Proof.
  unfold is_own_key. destruct (String.eqb_spec k proto); simpl; split;
    congruence.
Qed.

Lemma is_own_key_false (k : string) : is_own_key k = false <-> k = proto.
Proof.
  unfold is_own_key. destruct (String.eqb_spec k proto); simpl; split;
    congruence.
Qed.

(** The groups have no own [__proto__]. *)
Lemma Array_groupBy_no_proto {A} (self : list A) (f : A -> string) :
  obj_get proto (Array_groupBy self f) = None.
Proof.
  induction self as [| a self IH] using rev_ind; [reflexivity |].
  rewrite Array_groupBy_snoc.
  destruct (obj_get (f a) (Array_groupBy self f));
    now apply obj_set_no_proto.
Qed.

Lemma Array_groupBy_get {A} (self : list A) (f : A -> string) key :
  obj_get key (Array_groupBy self f)
  = if is_own_key key
    then match List.filter (fun a => String.eqb (f a) key) self with
         | [] => None
         | group => Some group
         end
    else None.
Proof.
  induction self as [| a self IH] using rev_ind;
    [simpl; now destruct (is_own_key key) |].
  rewrite Array_groupBy_snoc, List.filter_app. simpl.
  assert (Hstep : forall v,
             obj_get key (obj_set (f a) v (Array_groupBy self f))
             = if String.eqb (f a) proto then obj_get key (Array_groupBy self f)
               else if String.eqb (f a) key then Some v
                    else obj_get key (Array_groupBy self f))
    by (intros v; apply obj_get_set, Array_groupBy_no_proto).
  destruct (is_own_key key) eqn:Hown.
  - apply is_own_key_true in Hown.
    destruct (String.eqb_spec (f a) key) as [<- | Hne].
    + assert (Hfa : String.eqb (f a) proto = false)
        by (apply String.eqb_neq; congruence).
      rewrite IH.
      destruct (List.filter (fun b => String.eqb (f b) (f a)) self)
        as [| b group]; rewrite Hstep, Hfa; reflexivity.
    + rewrite app_nil_r, <- IH.
      destruct (obj_get (f a) (Array_groupBy self f)); rewrite Hstep;
        destruct (String.eqb (f a) proto); try reflexivity;
        destruct (String.eqb_spec (f a) key); tauto.
  - apply is_own_key_false in Hown. subst key.
    destruct (obj_get (f a) (Array_groupBy self f)); rewrite Hstep;
      destruct (String.eqb_spec (f a) proto) as [Heq | Hne];
      try exact IH; exact IH.
Qed.

Lemma filter_nil_iff {A} (P : A -> bool) (l : list A) :
  List.filter P l = [] <-> forall a, In a l -> P a = false.
Proof.
  induction l as [| b l IH]; simpl; [tauto |].
  destruct (P b) eqn:Hb.
  - split; [discriminate |]. intros H. rewrite (H b) in Hb by now left.
    discriminate.
  - rewrite IH. split.
    + intros H a [<- | Ha]; [exact Hb | now apply H].
    + intros H a Ha. apply H. now right.
Qed.

Lemma Array_groupBy_keys {A} (self : list A) (f : A -> string) key :
  In key (Object_keys (Array_groupBy self f))
  <-> key <> proto /\ In key (map f self).
Proof.
  rewrite obj_keys_get, Array_groupBy_get, in_map_iff.
  destruct (is_own_key key) eqn:Hown.
  - apply is_own_key_true in Hown.
    destruct (List.filter (fun a => String.eqb (f a) key) self) as [| b group]
      eqn:Hf.
    + split; [congruence |]. intros (_ & a & Ha & Hin).
      rewrite filter_nil_iff in Hf. specialize (Hf a Hin).
      rewrite Ha, String.eqb_refl in Hf. discriminate.
    + split; [intros _ | discriminate]. split; [exact Hown |].
      assert (Hb : In b (List.filter (fun a => String.eqb (f a) key) self))
        by (rewrite Hf; now left).
      apply List.filter_In in Hb as [Hin Hb]. apply String.eqb_eq in Hb.
      exists b. tauto.
  - apply is_own_key_false in Hown. split; [congruence | tauto].
Qed.

Lemma named_keys_insert_index {V} n (k : string) (v : V) (o : obj V) :
  array_index k = Some n ->
  named_keys (Object_keys (obj_insert_index n k v o))
  = named_keys (Object_keys o).
Proof.
  intros Hk.
  assert (Hdrop : forall ks, named_keys (k :: ks) = named_keys ks).
  { intros ks. unfold named_keys. simpl. unfold is_array_index at 1.
    rewrite Hk. reflexivity. }
  induction o as [| [k0 v0] rest IH]; simpl.
  - apply (Hdrop []).
  - destruct (array_index k0) as [n0 |] eqn:Hk0;
      [destruct (n0 <? n)%N |].
    + change (named_keys (k0 :: Object_keys (obj_insert_index n k v rest))
              = named_keys (k0 :: Object_keys rest)).
      unfold named_keys in *. simpl. rewrite IH. reflexivity.
    + apply (Hdrop (k0 :: Object_keys rest)).
    + apply (Hdrop (k0 :: Object_keys rest)).
Qed.

(** Only a new key that is not an array index extends the named keys. *)
Lemma named_keys_define {V} (k : string) (v : V) (o : obj V) :
  named_keys (Object_keys (obj_define k v o))
  = if hasOwnProperty k o then named_keys (Object_keys o)
    else named_keys (Object_keys o) ++ named_keys [k].
Proof.
  unfold obj_define. destruct (hasOwnProperty k o).
  - now rewrite Object_keys_update.
  - unfold named_keys at 3. simpl. unfold is_array_index.
    destruct (array_index k) as [n |] eqn:Hk; simpl.
    + rewrite app_nil_r. now apply named_keys_insert_index.
    + rewrite Object_keys_app. unfold named_keys.
      rewrite List.filter_app. simpl. unfold is_array_index. now rewrite Hk.
Qed.

Lemma first_seen_In (ks : list string) k :
  In k (first_seen ks) <-> In k ks.
Proof.
  induction ks as [| k0 ks IH]; simpl; [tauto |].
  rewrite List.filter_In, IH, negb_true_iff.
  destruct (String.eqb_spec k0 k) as [-> | Hne]; [tauto |].
  split; [intros [H | [H _]]; tauto | intros [H | H]; tauto].
Qed.

Lemma first_seen_snoc (ks : list string) k :
  first_seen (ks ++ [k])
  = if existsb (String.eqb k) ks then first_seen ks else first_seen ks ++ [k].
Proof.
  induction ks as [| k0 ks IH]; [reflexivity |].
  simpl. rewrite IH. rewrite (String.eqb_sym k k0).
  destruct (String.eqb_spec k0 k) as [-> | Hne]; simpl.
  - destruct (existsb (String.eqb k) ks); [reflexivity |].
    rewrite List.filter_app. simpl. rewrite String.eqb_refl. simpl.
    now rewrite app_nil_r.
  - destruct (existsb (String.eqb k) ks); [reflexivity |].
    rewrite List.filter_app. simpl.
    destruct (String.eqb_spec k0 k); [tauto | reflexivity].
Qed.

Lemma existsb_eqb_In (k : string) (ks : list string) :
  existsb (String.eqb k) ks = true <-> In k ks.
Proof.
  rewrite existsb_exists. split.
  - intros (x & Hin & Heq). apply String.eqb_eq in Heq. now subst x.
  - intros Hin. exists k. split; [exact Hin | apply String.eqb_refl].
Qed.

(** The keys that are not array indices keep the order of first occurrence. *)
Lemma Array_groupBy_named {A} (self : list A) (f : A -> string) :
  named_keys (Object_keys (Array_groupBy self f))
  = first_seen (named_keys (List.filter is_own_key (map f self))).
Proof.
  induction self as [| a self IH] using rev_ind; [reflexivity |].
  assert (Hstep : forall v,
             named_keys (Object_keys (obj_set (f a) v (Array_groupBy self f)))
             = first_seen
                 (named_keys (List.filter is_own_key (map f (self ++ [a]))))).
  { intros v. rewrite map_app, List.filter_app. simpl.
    destruct (is_own_key (f a)) eqn:Hown.
    - apply is_own_key_true in Hown. rewrite obj_set_own by exact Hown.
      rewrite named_keys_define, IH. unfold named_keys at 4.
      rewrite List.filter_app.
      fold (named_keys (List.filter is_own_key (map f self))).
      simpl. unfold hasOwnProperty.
      destruct (is_array_index (f a)) eqn:Hidx; simpl.
      + rewrite !app_nil_r. destruct (obj_get _ _); reflexivity.
      + rewrite first_seen_snoc.
        destruct (obj_get (f a) (Array_groupBy self f)) as [g |] eqn:Hget.
        * assert (Hin : In (f a)
                          (named_keys (List.filter is_own_key (map f self)))).
          { apply List.filter_In. split; [| now rewrite Hidx].
            apply List.filter_In. split; [| now apply is_own_key_true].
            apply (Array_groupBy_keys self f (f a)), obj_keys_get. congruence. }
          apply existsb_eqb_In in Hin. now rewrite Hin.
        * assert (Hnin : existsb (String.eqb (f a))
                           (named_keys (List.filter is_own_key (map f self)))
                         = false).
          { apply not_true_iff_false. rewrite existsb_eqb_In. intros Hin.
            apply List.filter_In in Hin as [Hin _].
            apply List.filter_In in Hin as [Hin _].
            assert (Hkey : In (f a) (Object_keys (Array_groupBy self f)))
              by (apply Array_groupBy_keys; tauto).
            apply obj_keys_get in Hkey. congruence. }
          now rewrite Hnin.
    - apply is_own_key_false in Hown.
      rewrite Hown, obj_set_proto by apply Array_groupBy_no_proto.
      rewrite app_nil_r. exact IH. }
  rewrite Array_groupBy_snoc.
  destruct (obj_get (f a) (Array_groupBy self f)); apply Hstep.
Qed.

Lemma js_object_prefix {V} (o : obj V) (e : string * V) :
  js_object (o ++ [e]) = true -> js_object o = true.
Proof.
  unfold js_object. rewrite Object_keys_app. destruct e as [k v].
  change (Object_keys [(k, v)]) with [k]. intros H.
  now apply js_keys_ok_snoc in H.
Qed.

Lemma Object_keys_map {A B} (g : string -> A -> B) (o : obj A) :
  Object_keys (map (fun '(k, x) => (k, g k x)) o) = Object_keys o.
Proof.
  unfold Object_keys. rewrite map_map. apply map_ext. now intros [k x].
Qed.

(** Rebuilding an object key by key keeps its order. *)
Lemma Record_fromIterableWith_entries {A B} (g : string -> A -> B) (o : obj A) :
  js_object o = true ->
  ~ In proto (Object_keys o) ->
  Record_fromIterableWith (Object_entries o) (fun '(k, x) => (k, g k x))
  = map (fun '(k, x) => (k, g k x)) o.
Proof.
  unfold Record_fromIterableWith, Object_entries.
  induction o as [| [k x] o IH] using rev_ind; intros Hok Hown;
    [reflexivity |].
  rewrite Object_keys_app in Hown.
  rewrite fold_left_app, map_app. simpl.
  rewrite (IH (js_object_prefix _ _ Hok))
    by (intros Hin; apply Hown, in_or_app; now left).
  apply obj_set_last.
  - intros ->. apply Hown, in_or_app. right. now left.
  - unfold js_object in *. rewrite Object_keys_app, Object_keys_map.
    rewrite Object_keys_app in Hok. exact Hok.
Qed.

Lemma obj_get_map {A B} (g : string -> A -> B) (o : obj A) key :
  obj_get key (map (fun '(k, x) => (k, g k x)) o)
  = option_map (g key) (obj_get key o).
Proof.
  induction o as [| [k x] o IH]; simpl; [reflexivity |].
  destruct (String.eqb_spec k key) as [-> | Hne]; [reflexivity | exact IH].
Qed.

(** [toRecord] collapses each group of [Array.groupBy]. *)
Lemma toRecord_groups (formData : FormData) :
  toRecord formData
  = map (fun '(key, group) => (key, collapse (map snd group)))
      (Array_groupBy formData fst).
Proof.
  unfold toRecord, entries.
  apply (Record_fromIterableWith_entries
           (fun (_ : string) (group : list (string * FormDataEntryValue)) =>
              collapse (map snd group))).
  - apply Array_groupBy_ok.
  - intros Hin. apply Array_groupBy_keys in Hin as [Hne _]. now apply Hne.
Qed.

Lemma toRecord_ok (formData : FormData) :
  js_object (toRecord formData) = true.
Proof.
  rewrite toRecord_groups. unfold js_object.
  rewrite (Object_keys_map (fun _ group => collapse (map snd group))).
  apply Array_groupBy_ok.
Qed.

Lemma toRecord_keys (formData : FormData) :
  Object_keys (toRecord formData) = Object_keys (Array_groupBy formData fst).
Proof.
  rewrite toRecord_groups.
  apply (Object_keys_map (fun _ group => collapse (map snd group))).
Qed.

Lemma toRecord_get (formData : FormData) key :
  obj_get key (toRecord formData)
  = if is_own_key key
    then match getAll key formData with
         | [] => None
         | values => Some (collapse values)
         end
    else None.
Proof.
  rewrite toRecord_groups.
  rewrite (obj_get_map (fun _ group => collapse (map snd group))).
  rewrite Array_groupBy_get. unfold getAll.
  destruct (is_own_key key); [| reflexivity].
  destruct (List.filter (fun e => String.eqb (fst e) key) formData);
    reflexivity.
Qed.

(** A run of entries under a key that was not seen before makes one new
    group, placed last when the order allows it. *)
Lemma Array_groupBy_run {A} (self run : list A) (f : A -> string) key a :
  key <> proto ->
  (forall b, In b (a :: run) -> f b = key) ->
  ~ In key (map f self) ->
  js_object (Array_groupBy self f ++ [(key, a :: run)]) = true ->
  Array_groupBy (self ++ a :: run) f = Array_groupBy self f ++ [(key, a :: run)].
Proof.
  intros Hown Hkey Hnew Hok.
  assert (Hnin : ~ In key (Object_keys (Array_groupBy self f)))
    by (rewrite Array_groupBy_keys; tauto).
  assert (Hfirst : Array_groupBy (self ++ [a]) f
                   = Array_groupBy self f ++ [(key, [a])]).
  { rewrite Array_groupBy_snoc, (Hkey a) by now left.
    assert (Hget : obj_get key (Array_groupBy self f) = None)
      by now apply obj_get_None.
    rewrite Hget. apply obj_set_last; [exact Hown |].
    unfold js_object in *. rewrite Object_keys_app in *. exact Hok. }
  clear Hok.
  assert (Hrun : forall more,
             (forall b, In b more -> f b = key) ->
             Array_groupBy (self ++ a :: more) f
             = Array_groupBy self f ++ [(key, a :: more)]).
  { clear Hkey. intros more.
    induction more as [| b more IH] using rev_ind; intros Hkey.
    - exact Hfirst.
    - change (self ++ a :: more ++ [b]) with (self ++ (a :: more) ++ [b]).
      rewrite app_assoc, Array_groupBy_snoc.
      rewrite IH by (intros c Hc; apply Hkey, in_or_app; now left).
      rewrite (Hkey b) by (apply in_or_app; right; now left).
      rewrite obj_get_app.
      assert (Hget : obj_get key (Array_groupBy self f) = None)
        by now apply obj_get_None.
      rewrite Hget. simpl. rewrite String.eqb_refl.
      rewrite obj_set_own by exact Hown.
      unfold obj_define, hasOwnProperty. rewrite obj_get_app, Hget. simpl.
      rewrite String.eqb_refl. now apply obj_update_last. }
  apply Hrun. intros b Hb. apply Hkey. now right.
Qed.

Lemma is_entry_value_coerce (v : JsValue) :
  is_entry_value v = true -> is_nullish v = false /\ of_entry (coerce v) = v.
Proof. destruct v; try discriminate; intros _; split; reflexivity. Qed.

Lemma entry_values_coerce (items : list JsValue) :
  forallb is_entry_value items = true ->
  List.filter (fun item => negb (is_nullish item)) items = items
  /\ map of_entry (map coerce items) = items.
Proof.
  induction items as [| item rest IH]; [split; reflexivity |].
  simpl. rewrite andb_true_iff. intros [Hitem Hrest].
  destruct (is_entry_value_coerce item Hitem) as [Hnull Hback].
  destruct (IH Hrest) as [Hfilter Hmap].
  rewrite Hnull, Hback. simpl. rewrite Hfilter, Hmap. split; reflexivity.
Qed.

Lemma map_snd_entries (key : string) (items : list JsValue) :
  map snd (map (fun item => (key, coerce item)) items) = map coerce items.
Proof. rewrite map_map. reflexivity. Qed.

Lemma collapse_record_entries key (value : FormDataCoercibleValue) :
  is_grouped_value value = true ->
  record_entries key value <> []
  /\ collapse (map snd (record_entries key value)) = value.
Proof.
  destruct value as [v | items]; simpl.
  - intros Hv. destruct (is_entry_value_coerce v Hv) as [Hnull Hback].
    rewrite Hnull. simpl. rewrite Hback. split; [discriminate | reflexivity].
  - rewrite andb_true_iff. intros [Hlen Hitems].
    destruct (entry_values_coerce items Hitems) as [Hfilter Hmap].
    rewrite Hfilter, map_snd_entries.
    destruct items as [| a [| b rest]]; try discriminate.
    split; [discriminate |].
    unfold collapse. change (map coerce (a :: b :: rest))
      with (coerce a :: coerce b :: map coerce rest).
    change (coerce a :: coerce b :: map coerce rest)
      with (map coerce (a :: b :: rest)).
    now rewrite Hmap.
Qed.

(** Grouping what a record of grouped values wrote gives the record's slots
    back, each with the entries it wrote. *)
Lemma Array_groupBy_fromFormDataRecord (r : FormDataRecord) :
  js_object r = true ->
  ~ In proto (Object_keys r) ->
  (forall key value, In (key, value) r -> is_grouped_value value = true) ->
  Array_groupBy (fromFormDataRecord r) fst
  = map (fun '(key, value) => (key, record_entries key value)) r.
Proof.
  induction r as [| [key value] r IH] using rev_ind; intros Hok Hown Htyped;
    [reflexivity |].
  rewrite Object_keys_app in Hown.
  assert (Hok' := js_object_prefix _ _ Hok).
  assert (IH' : Array_groupBy (fromFormDataRecord r) fst
                = map (fun '(key, value) => (key, record_entries key value)) r).
  { apply IH; [exact Hok' | |].
    - intros Hin. apply Hown, in_or_app. now left.
    - intros k v Hin. apply (Htyped k v). apply in_or_app. now left. }
  rewrite fromFormDataRecord_app, map_app.
  rewrite (fromFormDataRecord_flat [(key, value)]). simpl. rewrite app_nil_r.
  assert (Hvalue : is_grouped_value value = true).
  { apply (Htyped key). apply in_or_app. right. now left. }
  destruct (collapse_record_entries key value Hvalue) as [Hnonempty _].
  assert (Hkeys : forall b, In b (record_entries key value) -> fst b = key)
    by (intros b; apply record_entries_key).
  destruct (record_entries key value) as [| a run]; [congruence |].
  rewrite <- IH'. apply Array_groupBy_run.
  - intros ->. apply Hown, in_or_app. right. now left.
  - exact Hkeys.
  - intros Hin. apply fromFormDataRecord_keys in Hin.
    unfold js_object in Hok. rewrite Object_keys_app in Hok.
    change (Object_keys [(key, value)]) with [key] in Hok.
    apply js_keys_ok_snoc in Hok. tauto.
  - unfold js_object in *. rewrite Object_keys_app, IH'.
    rewrite (Object_keys_map (fun key value => record_entries key value)).
    rewrite Object_keys_app in Hok. exact Hok.
Qed.

Lemma roundtrip_get (r : FormDataRecord) key :
  js_object r = true ->
  obj_get key (toRecord (fromFormDataRecord r))
  = if is_own_key key
    then match obj_get key r with
         | Some value =>
             match map snd (record_entries key value) with
             | [] => None
             | values => Some (collapse values)
             end
         | None => None
         end
    else None.
Proof.
  intros Hok. rewrite toRecord_get, getAll_fromFormDataRecord by exact Hok.
  destruct (is_own_key key); [| reflexivity].
  destruct (obj_get key r); reflexivity.
Qed.

Lemma toRecord_key_set (formData : FormData) key :
  In key (Object_keys (toRecord formData))
  <-> key <> proto /\ In key (map fst formData).
Proof. rewrite toRecord_keys. apply Array_groupBy_keys. Qed.

Lemma toRecord_key_order (formData : FormData) :
  Object_keys (toRecord formData)
  = index_keys (Object_keys (toRecord formData))
    ++ first_seen (named_keys (List.filter is_own_key (map fst formData))).
Proof.
  rewrite <- (Array_groupBy_named formData fst), <- toRecord_keys.
  apply js_keys_ok_split. apply toRecord_ok.
Qed.

Lemma filter_all {A} (P : A -> bool) (l : list A) :
  forallb P l = true -> List.filter P l = l.
Proof.
  induction l as [| a l IH]; [reflexivity |].
  simpl. rewrite andb_true_iff. intros [Ha Hl]. now rewrite Ha, (IH Hl).
Qed.

(** Without array-index keys the record keeps the order of first
    occurrence. *)
Lemma toRecord_first_seen (formData : FormData) :
  forallb is_own_key (map fst formData) = true ->
  forallb (fun k => negb (is_array_index k)) (map fst formData) = true ->
  Object_keys (toRecord formData) = first_seen (map fst formData).
Proof.
  intros Hown Hnamed.
  rewrite toRecord_key_order, (filter_all _ _ Hown).
  unfold named_keys. rewrite (filter_all _ _ Hnamed).
  replace (index_keys (Object_keys (toRecord formData))) with (@nil string);
    [reflexivity |].
  symmetry. apply filter_nil_iff. intros k Hk.
  apply toRecord_key_set in Hk as [_ Hk].
  rewrite forallb_forall in Hnamed. specialize (Hnamed k Hk).
  now apply negb_true_iff in Hnamed.
Qed.

(** ** Facts about the merge *)

Lemma last_entry_split {A} key (v : A) (before after : list (string * A)) :
  ~ In key (map fst after) ->
  last_entry key (before ++ (key, v) :: after) = Some v.
Proof.
  intros Hnot. rewrite last_entry_app. simpl.
  assert (Hafter : last_entry key after = None).
  { induction after as [| [k w] rest IH]; simpl in *; [reflexivity |].
    rewrite IH by tauto.
    destruct (String.eqb_spec k key); [tauto | reflexivity]. }
  rewrite Hafter, String.eqb_refl. reflexivity.
Qed.

Lemma last_entry_None {A} key (entries : list (string * A)) :
  last_entry key entries = None <-> ~ In key (map fst entries).
Proof.
  induction entries as [| [k v] rest IH]; simpl; [tauto |].
  destruct (last_entry key rest) as [w |].
  - split; [discriminate |]. intros H.
    assert (Hw : Some w = None) by (apply IH; tauto). discriminate.
  - destruct (String.eqb_spec k key) as [-> | Hne].
    + split; [discriminate | tauto].
    + split; [| reflexivity]. intros _ [H | H]; [congruence |].
      now apply IH.
Qed.

Lemma Map_get_new entries key :
  Map_get (Map_new entries) key
  = match last_entry key entries with Some v => v | None => undefined end.
Proof. unfold Map_get. rewrite Map_new_lookup. reflexivity. Qed.

Lemma mergeIssues_from (actualMap : gmap string unknown) arrayIssues :
  forall (acc : FormModelFormatterResult) key,
    obj_get proto acc = None ->
    obj_get key
      (fold_left
         (fun result arrayIssue =>
            let key := join "." (issue_path arrayIssue) in
            let actual := Map_get actualMap key in
            obj_set key
              {| actual := actual; message := issue_message arrayIssue |} result)
         arrayIssues acc)
    = if is_own_key key
      then match last_entry key (keyed_messages arrayIssues) with
           | Some msg =>
               Some {| actual := Map_get actualMap key; message := msg |}
           | None => obj_get key acc
           end
      else None.
Proof.
  induction arrayIssues as [| a rest IH]; intros acc key Hnone; simpl.
  { destruct (is_own_key key) eqn:Hown; [reflexivity |].
    apply is_own_key_false in Hown. now subst key. }
  rewrite IH by now apply obj_set_no_proto.
  rewrite obj_get_set by exact Hnone. unfold issue_key.
  destruct (is_own_key key) eqn:Hown; [| reflexivity].
  apply is_own_key_true in Hown.
  destruct (last_entry key (keyed_messages rest)); [reflexivity |].
  destruct (String.eqb_spec (join "." (issue_path a)) proto) as [Hp | Hp].
  - destruct (String.eqb_spec (join "." (issue_path a)) key);
      [congruence | reflexivity].
  - destruct (String.eqb_spec (join "." (issue_path a)) key) as [-> | Hne];
      reflexivity.
Qed.

Lemma mergeIssues_get actualMap arrayIssues key :
  obj_get key (mergeIssues actualMap arrayIssues)
  = if is_own_key key
    then match last_entry key (keyed_messages arrayIssues) with
         | Some msg =>
             Some {| actual := Map_get actualMap key; message := msg |}
         | None => None
         end
    else None.
Proof.
  unfold mergeIssues. rewrite mergeIssues_from by reflexivity. reflexivity.
Qed.

Lemma keyed_messages_keys arrayIssues :
  map fst (keyed_messages arrayIssues) = map issue_key arrayIssues.
Proof. unfold keyed_messages. rewrite map_map. reflexivity. Qed.

Lemma mergeIssues_ok (actualMap : gmap string unknown)
  (arrayIssues : list ArrayFormatterIssue) :
  js_object (mergeIssues actualMap arrayIssues) = true.
Proof.
  unfold mergeIssues.
  assert (H : forall acc : FormModelFormatterResult,
             js_object acc = true ->
             js_object
               (fold_left
                  (fun result arrayIssue =>
                     let key := join "." (issue_path arrayIssue) in
                     let actual := Map_get actualMap key in
                     obj_set key
                       {| actual := actual;
                          message := issue_message arrayIssue |} result)
                  arrayIssues acc) = true).
  { induction arrayIssues as [| a rest IH]; intros acc Hacc; [exact Hacc |].
    simpl. apply IH. now apply obj_set_ok. }
  now apply H.
Qed.

Lemma mergeIssues_keys (actualMap : gmap string unknown)
  (arrayIssues : list ArrayFormatterIssue) (key : string) :
  In key (Object_keys (mergeIssues actualMap arrayIssues))
  <-> key <> proto /\ In key (map issue_key arrayIssues).
Proof.
  rewrite obj_keys_get, mergeIssues_get, <- keyed_messages_keys.
  destruct (is_own_key key) eqn:Hown.
  - apply is_own_key_true in Hown.
    destruct (last_entry key (keyed_messages arrayIssues)) as [msg |] eqn:Hk.
    + split; [intros _ | discriminate]. split; [exact Hown |].
      destruct (in_dec String.string_dec key
                  (map fst (keyed_messages arrayIssues)))
        as [Hin | Hnin]; [exact Hin |].
      apply last_entry_None in Hnin. congruence.
    + apply last_entry_None in Hk. tauto.
  - apply is_own_key_false in Hown. tauto.
Qed.

(** The value that the result holds for a key of the formatted issues. *)
Lemma mergeIssues_reported (actualMap : gmap string unknown)
  (arrayIssues : list ArrayFormatterIssue) (key : string) :
  key <> proto ->
  In key (map issue_key arrayIssues) ->
  exists msg,
    obj_get key (mergeIssues actualMap arrayIssues)
    = Some {| actual := Map_get actualMap key; message := msg |}.
Proof.
  intros Hown Hin. rewrite mergeIssues_get.
  apply is_own_key_true in Hown. rewrite Hown.
  destruct (last_entry key (keyed_messages arrayIssues)) as [msg |] eqn:Hk.
  - now exists msg.
  - apply last_entry_None in Hk. rewrite keyed_messages_keys in Hk. tauto.
Qed.

(** The entries of a node whose nested leaf is reached without a Pointer
    end with an entry of the node's own key that holds the leaf's value. *)
Lemma nested_leaf_block front info a child b path back :
  nested_leaf child = Some b ->
  ~ In (join "." path) (map fst back) ->
  last_entry (join "." path)
    (front ++ collectActualValues (Transformation info a child) path ++ back)
  = Some (or_undefined b).
Proof.
  intros Hleaf Hback.
  apply last_entry_None in Hback.
  rewrite !last_entry_app, Hback.
  change (collectActualValues (Transformation info a child) path)
    with ([(join "." path, or_undefined a)] ++ collectActualValues child path).
  rewrite last_entry_app, (nested_leaf_last child path b Hleaf). reflexivity.
Qed.

(** ** C1 *)

(** C1. For every record (an object: distinct keys in enumeration
    order) that has no key [__proto__] and whose slots hold a string, a
    file, or an array of at least two strings or files, so that nothing is
    [null] or [undefined] and no array is empty or has one element,
    [toRecord (fromFormDataRecord r)] is [r]. *)
Theorem record_round_trip (r : FormDataRecord) :
  js_object r = true ->
  forallb is_own_key (Object_keys r) = true ->
  forallb (fun '(_, value) => is_grouped_value value) r = true ->
  toRecord (fromFormDataRecord r) = r.
Proof.
  intros Hok Hown Hall.
  assert (Htyped : forall key value,
             In (key, value) r -> is_grouped_value value = true).
  { intros key value Hin. rewrite forallb_forall in Hall.
    exact (Hall (key, value) Hin). }
  assert (Hproto : ~ In proto (Object_keys r)).
  { intros Hin. rewrite forallb_forall in Hown.
    specialize (Hown proto Hin). discriminate. }
  rewrite toRecord_groups, Array_groupBy_fromFormDataRecord by assumption.
  rewrite map_map. rewrite <- (map_id r) at 2.
  apply map_ext_in. intros [key value] Hin.
  now destruct (collapse_record_entries key value (Htyped key value Hin))
    as [_ ->].
Qed.

(** ** C2 *)

(** C2. For a submission with no entry named [__proto__], [toRecord]
    groups the entries by key.  The keys of the
    record are the keys of the submission: those that are array indices
    first, in ascending numeric order, then the others in the order in which
    the submission first has them.  A key with one entry holds that value
    alone, a key with two entries or more holds its values as a list in the
    order of the submission, and no key holds an empty list. *)
Theorem toRecord_grouping (formData : FormData) :
  forallb is_own_key (map fst formData) = true ->
  (forall key,
      In key (Object_keys (toRecord formData)) <-> In key (map fst formData))
  /\ List.NoDup (Object_keys (toRecord formData))
  /\ Object_keys (toRecord formData)
     = index_keys (Object_keys (toRecord formData))
       ++ first_seen (named_keys (map fst formData))
  /\ StronglySorted index_lt (index_keys (Object_keys (toRecord formData)))
  /\ (forall key,
         obj_get key (toRecord formData)
         = match getAll key formData with
           | [] => None
           | [value] => Some (Single (of_entry value))
           | values => Some (Many (map of_entry values))
           end)
  /\ (forall key, obj_get key (toRecord formData) <> Some (Many [])).
Proof.
  intros Hown.
  assert (Hget : forall key,
             obj_get key (toRecord formData)
             = match getAll key formData with
               | [] => None
               | [value] => Some (Single (of_entry value))
               | values => Some (Many (map of_entry values))
               end).
  { intros key. rewrite toRecord_get.
    destruct (is_own_key key) eqn:Hkey.
    - destruct (getAll key formData) as [| a [| b rest]]; reflexivity.
    - apply is_own_key_false in Hkey. subst key.
      rewrite getAll_absent; [reflexivity |].
      intros Hin. rewrite forallb_forall in Hown.
      specialize (Hown proto Hin). discriminate. }
  split.
  { intros key. rewrite toRecord_key_set. split; [tauto |].
    intros Hin. split; [| exact Hin].
    rewrite forallb_forall in Hown. apply is_own_key_true, Hown, Hin. }
  split; [apply js_keys_ok_NoDup, toRecord_ok |].
  split.
  { rewrite <- (filter_all is_own_key (map fst formData) Hown) at 1.
    apply toRecord_key_order. }
  split; [apply js_keys_ok_index_sorted, toRecord_ok |].
  split; [exact Hget |].
  intros key. rewrite Hget.
  destruct (getAll key formData) as [| a [| b rest]]; discriminate.
Qed.

(** ** C3 *)

(** C3. [fromFormDataRecord] writes, slot after slot in the order of the
    record, one entry for a single value and one entry per element for an
    array, in the order of the array, leaving out what is [null] or
    [undefined]; a file is written as it is and any other value as its
    string; a key that the record does not have gets no entry. *)
Theorem fromFormDataRecord_entries (input : FormDataRecord) :
  js_object input = true ->
  fromFormDataRecord input
  = flat_map (fun '(key, value) => record_entries key value) input
  /\ (forall key,
         getAll key (fromFormDataRecord input)
         = match obj_get key input with
           | Some (Single value) =>
               if is_nullish value then [] else [coerce value]
           | Some (Many items) =>
               map coerce
                 (List.filter (fun item => negb (is_nullish item)) items)
           | None => []
           end)
  /\ (forall f, coerce (JsFile f) = EntryFile f)
  /\ (forall v, (forall f, v <> JsFile f) -> coerce v = EntryString (String_ v)).
Proof.
  intros Hok. split; [apply fromFormDataRecord_flat |].
  split; [| split; [reflexivity |]].
  - intros key. rewrite getAll_fromFormDataRecord by exact Hok.
    destruct (obj_get key input) as [[v | items] |]; simpl.
    + destruct (is_nullish v); reflexivity.
    + apply map_snd_entries.
    + reflexivity.
  - intros v Hv. destruct v; try reflexivity. now destruct (Hv f).
Qed.

(** ** C4 *)

(** C4. The collector emits, in this order: for a Pointer, the entry of
    the path extended by its own segments and then the entries of its
    child under that extended path; for a Composite, its own entry and
    then the entries of its children, one child after the other, all under
    the unchanged path; for a Refinement or a Transformation, its own
    entry and then the entries of its child under the unchanged path; for
    a leaf, its own entry only. *)
Theorem collect_order (path : list PropertyKey) :
  (forall p a child,
      collectActualValues (Pointer p a child) path
      = (join "." (path ++ pathItems_of p), or_undefined a)
          :: collectActualValues child (path ++ pathItems_of p))
  /\ (forall info a issues,
      collectActualValues (Composite info a issues) path
      = (join "." path, or_undefined a)
          :: flat_map (fun child => collectActualValues child path)
               (issueList_of issues))
  /\ (forall info a child,
      collectActualValues (Refinement info a child) path
      = (join "." path, or_undefined a) :: collectActualValues child path)
  /\ (forall info a child,
      collectActualValues (Transformation info a child) path
      = (join "." path, or_undefined a) :: collectActualValues child path)
  /\ (forall tag info a,
      collectActualValues (Leaf tag info a) path
      = [(join "." path, or_undefined a)]).
Proof.
  split; [reflexivity |].
  split; [intros; apply collect_composite |].
  repeat split; reflexivity.
Qed.

(** ** C5 *)

(** C5. [formatIssue] folds the collected entries into its map of actual
    values and merges that map with the formatted issues.  For a path that
    occurs in several entries the map holds the value of the last entry
    with that path, and that value is the [actual] of the result wherever
    the result has the path: at the path of a formatted issue, [__proto__]
    apart.  So where the tree has a Transformation whose nested leaf
    reports at the same path, with no later entry at that path, the map and
    the result hold the leaf's value there. *)
Theorem last_write_wins (i : ParseIssue) (arrayIssues : list ArrayFormatterIssue) :
  ArrayFormatter_formatIssue i = Success arrayIssues ->
  exists actualMap result,
    formatIssue i = Success result
    /\ result = mergeIssues actualMap arrayIssues
    /\ (forall before key v after,
           collectActualValues i [] = before ++ (key, v) :: after ->
           ~ In key (map fst after) ->
           Map_get actualMap key = v
           /\ (key <> proto ->
               In key (map issue_key arrayIssues) ->
               exists msg,
                 obj_get key result = Some {| actual := v; message := msg |}))
    /\ (forall front info a child path b back,
           collectActualValues i []
           = front ++ collectActualValues (Transformation info a child) path
               ++ back ->
           nested_leaf child = Some b ->
           ~ In (join "." path) (map fst back) ->
           Map_get actualMap (join "." path) = or_undefined b
           /\ (join "." path <> proto ->
               In (join "." path) (map issue_key arrayIssues) ->
               exists msg,
                 obj_get (join "." path) result
                 = Some {| actual := or_undefined b; message := msg |})).
Proof.
  intros HAF. unfold formatIssue. rewrite HAF.
  exists (Map_new (collectActualValues i [])),
    (mergeIssues (Map_new (collectActualValues i [])) arrayIssues).
  split; [reflexivity |]. split; [reflexivity |]. split.
  - intros before key v after Hsplit Hlast.
    assert (Hmap : Map_get (Map_new (collectActualValues i [])) key = v).
    { rewrite Map_get_new, Hsplit, last_entry_split by exact Hlast.
      reflexivity. }
    split; [exact Hmap |]. intros Hown Hin.
    destruct (mergeIssues_reported (Map_new (collectActualValues i []))
                arrayIssues key Hown Hin) as [msg Hmsg].
    exists msg. rewrite Hmsg, Hmap. reflexivity.
  - intros front info a child path b back Hsplit Hleaf Hback.
    assert (Hmap : Map_get (Map_new (collectActualValues i [])) (join "." path)
                   = or_undefined b).
    { rewrite Map_get_new, Hsplit,
        (nested_leaf_block front info a child b path back Hleaf Hback).
      reflexivity. }
    split; [exact Hmap |]. intros Hown Hin.
    destruct (mergeIssues_reported (Map_new (collectActualValues i []))
                arrayIssues (join "." path) Hown Hin) as [msg Hmsg].
    exists msg. rewrite Hmsg, Hmap. reflexivity.
Qed.

(** ** C6 *)

(** C6. When no formatted issue has the joined path [__proto__], the
    merged result has exactly the dot-joined paths of the formatted issues
    as keys.  Under each of them it stores the actual value
    the collector's map holds for that key, [undefined] when it holds none,
    and the message of the last formatted issue with that key.  Paths that
    only the collector produced are absent. *)
Theorem merge_result (i : ParseIssue) (arrayIssues : list ArrayFormatterIssue) :
  ArrayFormatter_formatIssue i = Success arrayIssues ->
  forallb is_own_key (map issue_key arrayIssues) = true ->
  exists result,
    formatIssue i = Success result
    /\ (forall before e after,
           arrayIssues = before ++ e :: after ->
           ~ In (issue_key e) (map issue_key after) ->
           obj_get (issue_key e) result
           = Some {| actual :=
                       match last_entry (issue_key e) (collectActualValues i []) with
                       | Some v => v
                       | None => undefined
                       end;
                     message := issue_message e |})
    /\ (forall key,
           In key (Object_keys result) <-> In key (map issue_key arrayIssues))
    /\ (forall key,
           ~ In key (map issue_key arrayIssues) -> obj_get key result = None).
Proof.
  intros HAF Hown. unfold formatIssue. rewrite HAF. simpl.
  rewrite forallb_forall in Hown.
  eexists. split; [reflexivity |].
  split; [| split].
  - intros before e after -> Hlast.
    rewrite mergeIssues_get. unfold keyed_messages. rewrite map_app. simpl.
    rewrite last_entry_split.
    + rewrite Map_get_new.
      rewrite Hown; [reflexivity |].
      rewrite map_app. apply in_or_app. right. now left.
    + fold (keyed_messages after). rewrite keyed_messages_keys. exact Hlast.
  - intros key. rewrite mergeIssues_keys. split; [tauto |].
    intros Hin. split; [| exact Hin]. apply is_own_key_true, Hown, Hin.
  - intros key Hnot. rewrite mergeIssues_get.
    rewrite <- keyed_messages_keys in Hnot. apply last_entry_None in Hnot.
    rewrite Hnot. now destruct (is_own_key key).
Qed.

(** ** C7 *)

(** C7. When the validator succeeds, [decodeFormModel] succeeds with the
    validator's value; when it fails with an issue tree, [decodeFormModel]
    fails with the mapping that [formatIssue] builds from that tree: the
    merge of the collector's map with the formatted issues. *)
Theorem decode_channels (formModelSchema : FormModelSchemaT) (formData : FormData) :
  match
    Schema_decode
      (schemaRecord (Schema_Struct (Record_map (fields formModelSchema) field_schema)))
      formData
  with
  | Success value => decodeFormModel formModelSchema formData = Success value
  | Failure error =>
      exists arrayIssues,
        ArrayFormatter_formatIssue (issue error) = Success arrayIssues
        /\ formatIssue (issue error)
           = Success
               (mergeIssues (Map_new (collectActualValues (issue error) []))
                  arrayIssues)
        /\ decodeFormModel formModelSchema formData
           = Failure
               (mergeIssues (Map_new (collectActualValues (issue error) []))
                  arrayIssues)
  end.
Proof.
  unfold decodeFormModel, formatError, formatIssue.
  destruct (Schema_decode _ formData) as [value | error]; simpl; [reflexivity |].
  destruct (ArrayFormatter_formatIssue (issue error)) as [arrayIssues | []].
  exists arrayIssues. repeat split.
Qed.

(** ** C8 *)

Lemma not_form_coercible_bound (Enc : EncodedType) :
  not_form_coercible Enc = true -> extends_FormDataCoercibleValue Enc = false.
Proof.
  destruct Enc as [| | | | | item]; try discriminate; try reflexivity.
  destruct item; try discriminate; reflexivity.
Qed.

(** The encoded types a field descriptor accepts. *)
Lemma form_coercible_bound (Enc : EncodedType) :
  extends_FormDataCoercibleValue Enc = true
  <-> Enc = TString \/ Enc = TFile
      \/ Enc = TArray TString \/ Enc = TArray TFile.
Proof.
  split.
  - destruct Enc as [| | | | | item]; try discriminate; auto.
    destruct item; try discriminate; auto.
  - intros [-> | [-> | [-> | ->]]]; reflexivity.
Qed.

(** C8. A schema whose encoded type is number, boolean, a plain object, or an
    array of one of these does not meet the bound of [FormFieldModelSchema],
    so no field descriptor of that schema exists: the construction is
    rejected by typing, before anything is decoded. *)
Theorem capability_rejection (A : Type) (Enc : EncodedType) :
  not_form_coercible Enc = true ->
  extends_FormDataCoercibleValue Enc = false
  /\ (FormFieldModelSchemaT A Enc -> False).
Proof.
  intros Hkind. pose proof (not_form_coercible_bound Enc Hkind) as Hbound.
  split; [exact Hbound |].
  intros [Hextends _]. congruence.
Qed.

(** ** C9 *)

(** C9. The key of every collected entry is the dot-joined path of the
    node it comes from; no segments give the empty key, so a leaf at the
    root is stored under the empty string, and a Pointer with the single
    segment "name" at the root is stored under "name". *)
Theorem collect_path_join :
  (forall issue path,
      map fst (collectActualValues issue path)
      = map (join ".") (nodePaths issue path))
  /\ join "." [] = ""
  /\ (forall tag info a,
      collectActualValues (Leaf tag info a) [] = [("", or_undefined a)])
  /\ (forall a child,
      collectActualValues (Pointer (PathArray [KString "name"]) a child) []
      = ("name", or_undefined a)
          :: collectActualValues child [KString "name"])
  /\ (forall a child,
      collectActualValues (Pointer (PathSingle (KString "name")) a child) []
      = ("name", or_undefined a)
          :: collectActualValues child [KString "name"]).
Proof.
  split; [exact collect_keys |]. repeat split; reflexivity.
Qed.

(** ** C10 *)

(** C10. At the record whose only key is [__proto__], holding an array of
    one string, [fromFormDataRecord] writes the entry and [toRecord] reads
    back a record without that key: the plain object that receives the
    groups takes the assignment to [__proto__] as a change of prototype.  So
    the key is not mapped to the bare element there. *)
Theorem singleton_list_proto_lost :
  js_object proto_record = true
  /\ obj_get proto proto_record = Some (Many [JsString "x"])
  /\ fromFormDataRecord proto_record = [(proto, EntryString "x")]
  /\ toRecord (fromFormDataRecord proto_record) = []
  /\ obj_get proto (toRecord (fromFormDataRecord proto_record))
     <> Some (Single (JsString "x")).
Proof.
  split; [reflexivity |]. split; [reflexivity |]. split; [reflexivity |].
  split; [reflexivity |]. discriminate.
Qed.

(** ** Further facts about the record codec *)

Lemma obj_In_get {V} (k : string) (v : V) (o : obj V) :
  js_object o = true -> In (k, v) o -> obj_get k o = Some v.
Proof.
  unfold js_object. induction o as [| [k0 v0] rest IH]; [intros _ [] |].
  change (Object_keys ((k0, v0) :: rest)) with (k0 :: Object_keys rest).
  intros Hok. apply js_keys_ok_cons in Hok as (Hnin & _ & Hrest).
  intros [[= -> ->] | Hin]; simpl.
  - now rewrite String.eqb_refl.
  - destruct (String.eqb_spec k0 k) as [-> | Hne]; [| now apply IH].
    exfalso. apply Hnin. apply in_map_iff. now exists (k, v).
Qed.

Lemma Array_groupBy_group {A} (self : list A) (f : A -> string) key group :
  In (key, group) (Array_groupBy self f) ->
  group = List.filter (fun a => String.eqb (f a) key) self /\ group <> [].
Proof.
  intros Hin. apply obj_In_get in Hin; [| apply Array_groupBy_ok].
  rewrite Array_groupBy_get in Hin.
  destruct (is_own_key key); [| discriminate].
  destruct (List.filter (fun a => String.eqb (f a) key) self);
    [discriminate | injection Hin as <-; split; [reflexivity | discriminate]].
Qed.

Lemma of_entry_coerce (value : FormDataEntryValue) :
  is_nullish (of_entry value) = false
  /\ is_entry_value (of_entry value) = true
  /\ coerce (of_entry value) = value.
Proof. destruct value; repeat split. Qed.

Lemma of_entry_inj (v w : FormDataEntryValue) : of_entry v = of_entry w -> v = w.
Proof. destruct v, w; simpl; congruence. Qed.

Lemma map_of_entry_inj (vs ws : list FormDataEntryValue) :
  map of_entry vs = map of_entry ws -> vs = ws.
Proof.
  revert ws. induction vs as [| v vs IH]; intros [| w ws]; simpl;
    try discriminate; [reflexivity |].
  intros [= Hv Hvs]. f_equal; [now apply of_entry_inj | now apply IH].
Qed.

Lemma of_entries_written (values : list FormDataEntryValue) :
  forallb is_entry_value (map of_entry values) = true.
Proof.
  induction values as [| v vs IH]; [reflexivity |].
  simpl. rewrite IH. now destruct v.
Qed.

Lemma collapse_grouped (values : list FormDataEntryValue) :
  values <> [] -> is_grouped_value (collapse values) = true.
Proof.
  destruct values as [| a [| b rest]]; [congruence | |]; intros _.
  - now destruct a.
  - unfold collapse, is_grouped_value. rewrite of_entries_written.
    reflexivity.
Qed.

Lemma collapse_written (key : string) (values : list FormDataEntryValue) :
  values <> [] -> map snd (record_entries key (collapse values)) = values.
Proof.
  intros Hne.
  destruct (collapse_record_entries key (collapse values) (collapse_grouped _ Hne))
    as [_ Hback].
  destruct values as [| a [| b rest]]; [congruence | |].
  - simpl. now destruct a.
  - unfold collapse, record_entries.
    destruct (entry_values_coerce _ (of_entries_written (a :: b :: rest)))
      as [-> _].
    rewrite map_snd_entries.
    assert (Hcoerce : forall vs, map coerce (map of_entry vs) = vs).
    { induction vs as [| v vs IH]; [reflexivity |]. simpl. rewrite IH.
      now destruct v. }
    apply Hcoerce.
Qed.

Lemma collapse_inj (vs ws : list FormDataEntryValue) :
  collapse vs = collapse ws -> vs = ws.
Proof.
  destruct vs as [| a [| b vs]], ws as [| c [| d ws]]; simpl;
    try discriminate; try reflexivity.
  - intros [= H]. f_equal. now apply of_entry_inj.
  - intros [= H1 H2 H3]. apply of_entry_inj in H1, H2.
    apply map_of_entry_inj in H3. congruence.
Qed.

Lemma toRecord_slot (formData : FormData) key value :
  In (key, value) (toRecord formData) ->
  exists group,
    group = List.filter (fun e => String.eqb (fst e) key) formData
    /\ group <> []
    /\ value = collapse (map snd group).
Proof.
  rewrite toRecord_groups, in_map_iff. intros ([k group] & [= -> <-] & Hin).
  apply Array_groupBy_group in Hin as [Hgroup Hne].
  exists group. repeat split; assumption.
Qed.

Lemma toRecord_slot_grouped (formData : FormData) key value :
  In (key, value) (toRecord formData) -> is_grouped_value value = true.
Proof.
  intros Hin. apply toRecord_slot in Hin as (group & _ & Hne & ->).
  apply collapse_grouped. destruct group; [congruence | discriminate].
Qed.

(** X1. Every slot of the record that [toRecord] builds holds a string, a
    file, or an array of two or more strings or files, and the record is an
    object in enumeration order. *)
Theorem toRecord_slots_grouped (formData : FormData) :
  js_object (toRecord formData) = true
  /\ forallb (fun '(_, value) => is_grouped_value value) (toRecord formData)
     = true.
Proof.
  split; [apply toRecord_ok |].
  apply forallb_forall. intros [key value] Hin.
  exact (toRecord_slot_grouped formData key value Hin).
Qed.

Lemma round_trip_grouped (r : FormDataRecord) :
  js_object r = true ->
  ~ In proto (Object_keys r) ->
  (forall key value, In (key, value) r -> is_grouped_value value = true) ->
  toRecord (fromFormDataRecord r) = r.
Proof.
  intros Hok Hown Htyped.
  rewrite toRecord_groups, Array_groupBy_fromFormDataRecord by assumption.
  rewrite map_map. rewrite <- (map_id r) at 2.
  apply map_ext_in. intros [key value] Hin.
  now destruct (collapse_record_entries key value (Htyped key value Hin))
    as [_ ->].
Qed.

(** What is named [__proto__] does not reach the groups. *)
Lemma Array_groupBy_own {A} (self : list A) (f : A -> string) :
  Array_groupBy self f
  = Array_groupBy (List.filter (fun a => is_own_key (f a)) self) f.
Proof.
  induction self as [| a self IH] using rev_ind; [reflexivity |].
  rewrite List.filter_app. simpl.
  destruct (is_own_key (f a)) eqn:Hown.
  - rewrite !Array_groupBy_snoc, <- IH. reflexivity.
  - rewrite app_nil_r, Array_groupBy_snoc, <- IH.
    apply is_own_key_false in Hown. rewrite Hown.
    destruct (obj_get proto (Array_groupBy self f));
      apply obj_set_proto, Array_groupBy_no_proto.
Qed.

(** X2. Writing the record of a submission and reading it again gives the
    same record: [toRecord] after [fromFormDataRecord] is the identity on
    what [toRecord] produces. *)
Theorem toRecord_stable (formData : FormData) :
  toRecord (fromFormDataRecord (toRecord formData)) = toRecord formData.
Proof.
  apply round_trip_grouped; [apply toRecord_ok | |].
  - intros Hin. apply toRecord_key_set in Hin as [Hown _]. now apply Hown.
  - apply toRecord_slot_grouped.
Qed.

(** X3. Reading a submission and writing the record back keeps, under every
    key other than [__proto__], the values of the submission in their
    order, and has no entry named [__proto__]. *)
Theorem fromFormDataRecord_toRecord_getAll (formData : FormData) (key : string) :
  getAll key (fromFormDataRecord (toRecord formData))
  = if is_own_key key then getAll key formData else [].
Proof.
  rewrite getAll_fromFormDataRecord by apply toRecord_ok.
  rewrite toRecord_get.
  destruct (is_own_key key); [| reflexivity].
  destruct (getAll key formData) as [| a rest] eqn:Hget; [reflexivity |].
  apply collapse_written. discriminate.
Qed.

(** X5. Two submissions with the same record have, under every key other
    than [__proto__], the same values in the same order: of the entries
    that it keeps, [toRecord] only forgets how the keys were interleaved. *)
Theorem toRecord_reflects_values (fd1 fd2 : FormData) :
  toRecord fd1 = toRecord fd2 ->
  forall key, key <> proto -> getAll key fd1 = getAll key fd2.
Proof.
  intros Heq key Hown. apply is_own_key_true in Hown.
  assert (Hget : obj_get key (toRecord fd1) = obj_get key (toRecord fd2))
    by now rewrite Heq.
  rewrite !toRecord_get, Hown in Hget.
  destruct (getAll key fd1) as [| a vs], (getAll key fd2) as [| b ws];
    try discriminate; [reflexivity |].
  injection Hget as Hget. now apply collapse_inj.
Qed.

(** X6. Appending an entry to the submission changes the record under the
    key of the entry only.  When the key is not [__proto__], a new key holds
    the value alone, a single value becomes the list of the two, a list gets
    the value at its end. *)
Theorem toRecord_append (formData : FormData) (key : string)
  (value : FormDataEntryValue) :
  (key <> proto ->
   obj_get key (toRecord (append key value formData))
   = Some match obj_get key (toRecord formData) with
          | None => Single (of_entry value)
          | Some (Single first) => Many [first; of_entry value]
          | Some (Many items) => Many (items ++ [of_entry value])
          end)
  /\ (forall other,
         other <> key ->
         obj_get other (toRecord (append key value formData))
         = obj_get other (toRecord formData)).
Proof.
  unfold append. split.
  - intros Hown. apply is_own_key_true in Hown.
    rewrite !toRecord_get, Hown, getAll_app.
    replace (getAll key [(key, value)]) with [value]
      by (unfold getAll; simpl; now rewrite String.eqb_refl).
    destruct (getAll key formData) as [| a [| b rest]]; simpl; [reflexivity.. |].
    rewrite map_app. reflexivity.
  - intros other Hne. rewrite !toRecord_get, getAll_app.
    replace (getAll other [(key, value)]) with (@nil FormDataEntryValue).
    + now rewrite app_nil_r.
    + unfold getAll. simpl. destruct (String.eqb_spec key other); [congruence |].
      reflexivity.
Qed.

(** X7. The record of a submission is empty exactly when the submission
    has no entry with a name other than [__proto__]. *)
Theorem toRecord_empty_iff (formData : FormData) :
  toRecord formData = []
  <-> List.filter (fun e => is_own_key (fst e)) formData = [].
Proof.
  split.
  - intros Hempty.
    destruct (List.filter (fun e => is_own_key (fst e)) formData)
      as [| [key value] rest] eqn:Hkept; [reflexivity |].
    assert (Hin : In (key, value)
                    (List.filter (fun e => is_own_key (fst e)) formData))
      by (rewrite Hkept; now left).
    apply List.filter_In in Hin as [Hin Hown].
    assert (Hkey : In key (Object_keys (toRecord formData))).
    { apply toRecord_key_set. split; [now apply is_own_key_true |].
      apply in_map_iff. now exists (key, value). }
    rewrite Hempty in Hkey. destruct Hkey.
  - intros Hkept. rewrite toRecord_groups, (Array_groupBy_own formData fst).
    now rewrite Hkept.
Qed.

Lemma flat_map_ext_In {A B} (f g : A -> list B) (l : list A) :
  (forall a, In a l -> f a = g a) -> flat_map f l = flat_map g l.
Proof.
  induction l as [| a l IH]; intros Hfg; [reflexivity |].
  simpl. rewrite (Hfg a) by now left.
  rewrite IH; [reflexivity |]. intros b Hb. apply Hfg. now right.
Qed.

Lemma record_entries_pairs (key : string) (value : FormDataCoercibleValue) :
  record_entries key value
  = map (fun v => (key, v)) (map snd (record_entries key value)).
Proof.
  destruct value as [v | items]; simpl.
  - now destruct (is_nullish v).
  - rewrite map_snd_entries, map_map. reflexivity.
Qed.

Lemma written_group (key : string) (group : FormData) :
  group <> [] ->
  (forall e, In e group -> fst e = key) ->
  record_entries key (collapse (map snd group)) = group.
Proof.
  intros Hne Hkey. rewrite record_entries_pairs, collapse_written.
  - rewrite map_map. rewrite <- (map_id group) at 2.
    apply map_ext_in. intros [k v] Hin. simpl.
    now rewrite <- (Hkey (k, v) Hin).
  - destruct group; [congruence | discriminate].
Qed.

(** Writing the record of a submission writes its groups one after the
    other. *)
Lemma fromFormDataRecord_toRecord_groups (formData : FormData) :
  fromFormDataRecord (toRecord formData)
  = flat_map snd (Array_groupBy formData fst).
Proof.
  rewrite fromFormDataRecord_flat, toRecord_groups, flat_map_concat_map, map_map.
  rewrite <- flat_map_concat_map. apply flat_map_ext_In.
  intros [key group] Hin. simpl.
  apply Array_groupBy_group in Hin as [-> Hne].
  apply written_group; [exact Hne |].
  intros e He. apply List.filter_In in He as [_ He]. now apply String.eqb_eq.
Qed.

Lemma flat_update_perm {A} (k : string) (group : list A) (a : A)
  (o : obj (list A)) :
  obj_get k o = Some group ->
  Permutation (flat_map snd (obj_update k (group ++ [a]) o))
    (a :: flat_map snd o).
Proof.
  induction o as [| [k0 g0] rest IH]; simpl; [discriminate |].
  destruct (String.eqb_spec k0 k) as [-> | Hne].
  - intros [= ->]. simpl. rewrite <- app_assoc. simpl.
    symmetry. apply Permutation_middle.
  - intros Hget. simpl. rewrite (IH Hget). symmetry. apply Permutation_middle.
Qed.

Lemma flat_insert_perm {A} (n : N) (k : string) (a : A) (o : obj (list A)) :
  Permutation (flat_map snd (obj_insert_index n k [a] o)) (a :: flat_map snd o).
Proof.
  induction o as [| [k0 g0] rest IH]; simpl; [reflexivity |].
  destruct (array_index k0) as [n0 |]; [destruct (n0 <? n)%N |];
    simpl; try reflexivity.
  rewrite IH. symmetry. apply Permutation_middle.
Qed.

Lemma Array_groupBy_perm {A} (self : list A) (f : A -> string) :
  (forall a, In a self -> f a <> proto) ->
  Permutation (flat_map snd (Array_groupBy self f)) self.
Proof.
  induction self as [| a self IH] using rev_ind; intros Hown; [reflexivity |].
  assert (Ha : f a <> proto) by (apply Hown, in_or_app; right; now left).
  assert (IH' : Permutation (flat_map snd (Array_groupBy self f)) self).
  { apply IH. intros b Hb. apply Hown, in_or_app. now left. }
  rewrite Array_groupBy_snoc.
  destruct (obj_get (f a) (Array_groupBy self f)) as [group |] eqn:Hget.
  - rewrite obj_set_own by exact Ha. unfold obj_define, hasOwnProperty.
    rewrite Hget.
    rewrite (flat_update_perm _ _ _ _ Hget), IH'.
    apply Permutation_cons_append.
  - rewrite obj_set_own by exact Ha. unfold obj_define, hasOwnProperty.
    rewrite Hget.
    destruct (array_index (f a)) as [n |].
    + rewrite flat_insert_perm, IH'. apply Permutation_cons_append.
    + rewrite flat_map_app. simpl. now apply Permutation_app_tail.
Qed.

(** X4. Reading a submission and writing the record back gives the entries
    of the submission that are not named [__proto__], each exactly once,
    with the entries of one key brought together. *)
Theorem fromFormDataRecord_toRecord_permutation (formData : FormData) :
  Permutation (fromFormDataRecord (toRecord formData))
    (List.filter (fun e => is_own_key (fst e)) formData).
Proof.
  rewrite fromFormDataRecord_toRecord_groups, (Array_groupBy_own formData fst).
  apply Array_groupBy_perm.
  intros e He. apply List.filter_In in He as [_ He].
  now apply is_own_key_true.
Qed.

Lemma record_entries_nil_iff (key : string) (value : FormDataCoercibleValue) :
  record_entries key value = [] <-> has_value value = false.
Proof.
  destruct value as [v | items]; simpl.
  - destruct (is_nullish v); simpl; split; congruence.
  - induction items as [| item rest IH]; simpl; [tauto |].
    destruct (is_nullish item); simpl; [exact IH | split; discriminate].
Qed.

Lemma getAll_nil_iff (key : string) (formData : FormData) :
  getAll key formData = [] <-> ~ In key (map fst formData).
Proof.
  split; [| apply getAll_absent].
  unfold getAll. induction formData as [| [k v] rest IH]; simpl; [tauto |].
  destruct (String.eqb_spec k key) as [-> | Hne]; [discriminate |].
  intros Hnil [Heq | Hin]; [congruence | now apply IH].
Qed.

(** X8. A key has entries in the form data written from a record exactly
    when the record holds under it a value, or an array with an item, that
    is not [null] or [undefined]. *)
Theorem fromFormDataRecord_writes_key (input : FormDataRecord) (key : string) :
  js_object input = true ->
  In key (map fst (fromFormDataRecord input))
  <-> exists value, obj_get key input = Some value /\ has_value value = true.
Proof.
  intros Hok.
  assert (Hget := getAll_fromFormDataRecord input key Hok).
  assert (Hnil := getAll_nil_iff key (fromFormDataRecord input)).
  rewrite Hget in Hnil.
  destruct (obj_get key input) as [value |].
  - assert (Hentries := record_entries_nil_iff key value).
    destruct (has_value value) eqn:Hvalue.
    + split; [intros _; now exists value |]. intros _.
      destruct (in_dec String.string_dec key (map fst (fromFormDataRecord input)))
        as [Hin | Hnin]; [exact Hin |].
      apply Hnil in Hnin. destruct (record_entries key value); [| discriminate].
      assert (false = true) by now apply eq_sym, Hentries. discriminate.
    + split; [| intros (v & [= <-] & Hv); congruence].
      intros Hin. exfalso.
      assert (Hempty : record_entries key value = []) by now apply Hentries.
      rewrite Hempty in Hnil. now apply Hnil.
  - split; [| intros (v & Hv & _); discriminate].
    intros Hin. exfalso. now apply Hnil.
Qed.

(** X9. A value and the array of that one value write the same form data:
    what is written does not tell them apart. *)
Theorem fromFormDataRecord_single_as_array (r1 r2 : FormDataRecord)
  (key : string) (v : JsValue) :
  fromFormDataRecord (r1 ++ (key, Single v) :: r2)
  = fromFormDataRecord (r1 ++ (key, Many [v]) :: r2).
Proof.
  rewrite !fromFormDataRecord_flat, !flat_map_app. simpl.
  now destruct (is_nullish v).
Qed.

(** X10. A slot without a value, [null], [undefined], an empty array or an
    array of such, writes what the record without the slot writes. *)
Theorem fromFormDataRecord_skips_slot (r1 r2 : FormDataRecord)
  (key : string) (value : FormDataCoercibleValue) :
  has_value value = false ->
  fromFormDataRecord (r1 ++ (key, value) :: r2) = fromFormDataRecord (r1 ++ r2).
Proof.
  intros Hvalue. rewrite !fromFormDataRecord_flat, !flat_map_app. simpl.
  apply (record_entries_nil_iff key) in Hvalue. now rewrite Hvalue.
Qed.

Lemma record_entries_file (key key' : string) (f : File)
  (value : FormDataCoercibleValue) :
  In (key', EntryFile f) (record_entries key value)
  <-> key' = key /\ holds_file f value.
Proof.
  assert (Hcoerce : forall v, coerce v = EntryFile f <-> v = JsFile f).
  { intros v. destruct v; simpl; split; congruence. }
  destruct value as [v | items]; simpl.
  - destruct (is_nullish v) eqn:Hnull; simpl.
    + split; [tauto |]. intros [_ ->]. discriminate.
    + split.
      * intros [[= <- Hv] | []]. split; [reflexivity | now apply Hcoerce].
      * intros [-> ->]. now left.
  - rewrite in_map_iff. split.
    + intros (item & [= <- Hitem] & Hin). apply List.filter_In in Hin as [Hin _].
      apply Hcoerce in Hitem. subst item. tauto.
    + intros [-> Hin]. exists (JsFile f). split; [reflexivity |].
      apply List.filter_In. tauto.
Qed.

(** X11. The form data written from a record has a file under a key exactly
    when the record holds that file under that key, as the value or as an
    item of the array: files are neither turned into strings nor made up. *)
Theorem fromFormDataRecord_files (input : FormDataRecord) (key : string) (f : File) :
  In (key, EntryFile f) (fromFormDataRecord input)
  <-> exists value, In (key, value) input /\ holds_file f value.
Proof.
  rewrite fromFormDataRecord_flat, in_flat_map. split.
  - intros ([k value] & Hin & Hentry).
    apply record_entries_file in Hentry as [-> Hfile]. now exists value.
  - intros (value & Hin & Hfile). exists (key, value).
    split; [exact Hin |]. apply record_entries_file. tauto.
Qed.

(** X23. [toRecord] leaves out the entries named [__proto__]: the record is
    that of the submission without them, it has no key [__proto__], and an
    entry named [__proto__] that is appended changes nothing. *)
Theorem toRecord_drops_proto (formData : FormData) :
  toRecord formData
  = toRecord (List.filter (fun e => is_own_key (fst e)) formData)
  /\ ~ In proto (Object_keys (toRecord formData))
  /\ obj_get proto (toRecord formData) = None
  /\ (forall value, toRecord (append proto value formData) = toRecord formData).
Proof.
  split; [| split; [| split]].
  - rewrite !toRecord_groups, (Array_groupBy_own formData fst). reflexivity.
  - intros Hin. apply toRecord_key_set in Hin as [Hown _]. now apply Hown.
  - now rewrite toRecord_get.
  - intros value. unfold append.
    rewrite !toRecord_groups, (Array_groupBy_own (formData ++ _) fst).
    rewrite List.filter_app. simpl. rewrite app_nil_r.
    now rewrite <- Array_groupBy_own.
Qed.

(** X22. When a record holds under a key other than [__proto__] an array
    with one element that is not [null] or [undefined], writing the record
    and reading it back gives under that key a single value, not the array:
    the element itself when it is a string or a file. *)
Theorem singleton_list_collapses (r : FormDataRecord) (key : string) (x : JsValue) :
  js_object r = true ->
  key <> proto ->
  obj_get key r = Some (Many [x]) ->
  is_nullish x = false ->
  obj_get key (toRecord (fromFormDataRecord r))
  = Some (Single (of_entry (coerce x)))
  /\ obj_get key (toRecord (fromFormDataRecord r)) <> Some (Many [x])
  /\ (is_entry_value x = true ->
      obj_get key (toRecord (fromFormDataRecord r)) = Some (Single x)).
Proof.
  intros Hok Hown Hget Hx. apply is_own_key_true in Hown.
  assert (Hback : obj_get key (toRecord (fromFormDataRecord r))
                  = Some (Single (of_entry (coerce x)))).
  { rewrite roundtrip_get, Hown, Hget by exact Hok. simpl. rewrite Hx.
    reflexivity. }
  rewrite Hback. split; [reflexivity |]. split; [discriminate |].
  intros Hentry. now destruct (is_entry_value_coerce x Hentry) as [_ ->].
Qed.

(** An array of two or more strings or files is read back as that array. *)
Lemma longer_list_kept (r : FormDataRecord) (key : string) (items : list JsValue) :
  js_object r = true ->
  key <> proto ->
  obj_get key r = Some (Many items) ->
  is_grouped_value (Many items) = true ->
  obj_get key (toRecord (fromFormDataRecord r)) = Some (Many items).
Proof.
  intros Hok Hown Hget Hitems. apply is_own_key_true in Hown.
  rewrite roundtrip_get, Hown, Hget by exact Hok.
  destruct (collapse_record_entries key (Many items) Hitems) as [Hne Heq].
  rewrite <- Heq at 2.
  destruct (record_entries key (Many items)); [congruence | reflexivity].
Qed.

(** ** Further facts about the formatter *)

Lemma flat_map_actuals (cs : list ParseIssue) path :
  Forall (fun c => forall path,
              map snd (collectActualValues c path)
              = map (fun n => or_undefined (own_actual n)) (subissues c)) cs ->
  map snd (flat_map (fun c => collectActualValues c path) cs)
  = map (fun n => or_undefined (own_actual n)) (flat_map subissues cs).
Proof.
  induction 1 as [| c cs Hc _ IH]; simpl; [reflexivity |].
  rewrite !map_app, Hc, IH. reflexivity.
Qed.

Lemma collect_one_entry_per_node_values (i : ParseIssue) :
  forall path,
    map snd (collectActualValues i path)
    = map (fun n => or_undefined (own_actual n)) (subissues i).
Proof.
  induction i as [p a child IH | info a single IH | info a issueList IH
                 | info a child IH | info a child IH | tag info a]
    using ParseIssue_induction; intros path; simpl.
  - rewrite IH. reflexivity.
  - rewrite !app_nil_r, IH. reflexivity.
  - f_equal. apply flat_map_actuals. exact IH.
  - rewrite IH. reflexivity.
  - rewrite IH. reflexivity.
  - reflexivity.
Qed.

(** X12. The collector yields one entry per node of the issue tree, parents
    before children and children in their order, and the value of an entry
    is the [actual] of its node, [undefined] when the node has none. *)
Theorem collect_one_entry_per_node (i : ParseIssue) (path : list PropertyKey) :
  map snd (collectActualValues i path)
  = map (fun n => or_undefined (own_actual n)) (subissues i)
  /\ length (collectActualValues i path) = length (subissues i)
  /\ collectActualValues i path <> [].
Proof.
  assert (Hvalues := collect_one_entry_per_node_values i path).
  split; [exact Hvalues |].
  assert (Hlen : length (collectActualValues i path) = length (subissues i)).
  { rewrite <- (length_map snd), Hvalues. apply length_map. }
  split; [exact Hlen |].
  intros Hnil. rewrite Hnil in Hlen. now destruct i.
Qed.

Lemma nodePaths_extend (i : ParseIssue) :
  forall path p', In p' (nodePaths i path) -> exists segs, p' = path ++ segs.
Proof.
  induction i as [p a child IH | info a single IH | info a issueList IH
                 | info a child IH | info a child IH | tag info a]
    using ParseIssue_induction; intros path p'; simpl.
  - intros [<- | Hin]; [now exists (pathItems_of p) |].
    destruct (IH _ _ Hin) as [segs ->]. exists (pathItems_of p ++ segs).
    now rewrite app_assoc.
  - rewrite app_nil_r. intros [<- | Hin]; [exists []; now rewrite app_nil_r |].
    now apply IH.
  - intros [<- | Hin]; [exists []; now rewrite app_nil_r |].
    apply in_flat_map in Hin as (c & Hc & Hin).
    rewrite List.Forall_forall in IH. exact (IH c Hc _ _ Hin).
  - intros [<- | Hin]; [exists []; now rewrite app_nil_r | now apply IH].
  - intros [<- | Hin]; [exists []; now rewrite app_nil_r | now apply IH].
  - intros [<- | []]. exists []. now rewrite app_nil_r.
Qed.

(** X13. Every key that the collector yields under a path is the join of
    that path extended by further segments: the prefix is never dropped. *)
Theorem collect_keys_extend_prefix (i : ParseIssue) (path : list PropertyKey)
  (key : string) :
  In key (map fst (collectActualValues i path)) ->
  exists segs, key = join "." (path ++ segs).
Proof.
  rewrite collect_keys, in_map_iff. intros (p' & <- & Hin).
  destruct (nodePaths_extend i path p' Hin) as [segs ->]. now exists segs.
Qed.

Lemma string_app_assoc (a b c : string) :
  (a +:+ b) +:+ c = a +:+ (b +:+ c).
Proof.
  induction a as [| ch a IH]; [reflexivity |].
  change ((String ch a +:+ b) +:+ c) with (String ch ((a +:+ b) +:+ c)).
  change (String ch a +:+ (b +:+ c)) with (String ch (a +:+ (b +:+ c))).
  now rewrite IH.
Qed.

Lemma join_cons (sep : string) (k k' : PropertyKey) (rest : list PropertyKey) :
  join sep (k :: k' :: rest) = ToString k +:+ sep +:+ join sep (k' :: rest).
Proof. reflexivity. Qed.

(** X14. The key of a path of two parts, neither empty, is the key of the
    first part, the separator and the key of the second: below a Pointer
    the keys are those of the Pointer followed by a dot and the segments
    further down. *)
Theorem join_app (sep : string) (p q : list PropertyKey) :
  p <> [] -> q <> [] ->
  join sep (p ++ q) = join sep p +:+ sep +:+ join sep q.
Proof.
  intros Hp Hq. induction p as [| k p IH]; [congruence |].
  destruct p as [| k' p].
  - destruct q as [| k' q]; [congruence | reflexivity].
  - change ((k :: k' :: p) ++ q) with (k :: k' :: (p ++ q)).
    rewrite !join_cons.
    change (k' :: p ++ q) with ((k' :: p) ++ q).
    rewrite IH by discriminate.
    now rewrite !string_app_assoc.
Qed.

Lemma collect_head (i : ParseIssue) (path : list PropertyKey) :
  is_pointer i = false ->
  exists rest,
    collectActualValues i path
    = (join "." path, or_undefined (own_actual i)) :: rest.
Proof.
  destruct i as [p a child | info a issues | info a child | info a child
                | tag info a]; simpl; [discriminate | | | |]; intros _;
    eexists; reflexivity.
Qed.

Lemma last_entry_head {A} (key : string) (v : A) (rest : list (string * A)) :
  last_entry key ((key, v) :: rest) <> None.
Proof.
  simpl. destruct (last_entry key rest); [discriminate |].
  rewrite String.eqb_refl. discriminate.
Qed.

(** X15. When the child of a Pointer is not itself a Pointer, the map built
    from the Pointer's entries reads everywhere like the map built from the
    child's entries under the extended path: the Pointer's own [actual] is
    always overwritten by its child's. *)
Theorem pointer_actual_shadowed (p : Path) (a : option unknown)
  (child : ParseIssue) (path : list PropertyKey) (key : string) :
  is_pointer child = false ->
  Map_get (Map_new (collectActualValues (Pointer p a child) path)) key
  = Map_get (Map_new (collectActualValues child (path ++ pathItems_of p))) key.
Proof.
  intros Hchild. rewrite !Map_get_new.
  change (collectActualValues (Pointer p a child) path)
    with ((join "." (path ++ pathItems_of p), or_undefined a)
            :: collectActualValues child (path ++ pathItems_of p)).
  destruct (collect_head child (path ++ pathItems_of p) Hchild) as [rest Hrest].
  cbn [last_entry].
  destruct (last_entry key (collectActualValues child (path ++ pathItems_of p)))
    as [w |] eqn:Hlast; [reflexivity |].
  destruct (String.eqb_spec (join "." (path ++ pathItems_of p)) key)
    as [<- | Hne]; [| reflexivity].
  exfalso. rewrite Hrest in Hlast. now apply last_entry_head in Hlast.
Qed.

Lemma last_entry_In {A} (key : string) (v : A) (entries : list (string * A)) :
  last_entry key entries = Some v -> In (key, v) entries.
Proof.
  induction entries as [| [k w] rest IH]; simpl; [discriminate |].
  destruct (last_entry key rest) as [u |].
  - intros [= ->]. right. now apply IH.
  - destruct (String.eqb_spec k key) as [-> | Hne]; [| discriminate].
    intros [= ->]. now left.
Qed.

(** X17. Every actual value in the formatted result is [undefined] or the
    [actual] of a node of the issue tree: the formatter does not make
    values up. *)
Theorem formatIssue_actual_from_tree (i : ParseIssue)
  (result : FormModelFormatterResult) (key : string)
  (value : FormModelFormatterIssueValue) :
  formatIssue i = Success result ->
  obj_get key result = Some value ->
  actual value = undefined
  \/ exists n, In n (subissues i) /\ actual value = or_undefined (own_actual n).
Proof.
  unfold formatIssue.
  destruct (ArrayFormatter_formatIssue i) as [arrayIssues | []]. simpl.
  intros [= <-]. rewrite mergeIssues_get.
  destruct (is_own_key key); [| discriminate].
  destruct (last_entry key (keyed_messages arrayIssues)) as [msg |];
    [| discriminate].
  intros [= <-]. simpl. rewrite Map_get_new.
  destruct (last_entry key (collectActualValues i [])) as [v |] eqn:Hlast;
    [right | now left].
  apply last_entry_In in Hlast.
  assert (Hv : In v (map snd (collectActualValues i [])))
    by (apply in_map_iff; now exists (key, v)).
  rewrite collect_one_entry_per_node_values in Hv.
  apply in_map_iff in Hv as (n & <- & Hn). now exists n.
Qed.

(** ** Further facts about descriptors and decoding *)

(** X20. The page of the example route: when the validator accepts the
    submission, the success page with the decoded name; when it rejects it,
    the form again, with the message of the last formatted issue at path
    "name" and the value that the collector's map holds for "name", and
    with neither when no formatted issue is at that path. *)
Theorem action_page (name_schema : Schema string TString)
  (data_name : Model -> string) (formData : FormData) :
  match Schema_decode (formDataSchema_of (MyForm name_schema)) formData with
  | Success data => action name_schema data_name formData
                    = SuccessPage (data_name data)
  | Failure error =>
      exists arrayIssues,
        ArrayFormatter_formatIssue (issue error) = Success arrayIssues
        /\ action name_schema data_name formData
           = FormPage
               {| field_id := "my-name-field";
                  field_label := "Enter your name";
                  field_name := "name";
                  field_placeholder := "John Doe";
                  field_defaultValue :=
                    match last_entry "name" (keyed_messages arrayIssues) with
                    | Some _ =>
                        match
                          last_entry "name"
                            (collectActualValues (issue error) [])
                        with
                        | Some v => v
                        | None => undefined
                        end
                    | None => undefined
                    end;
                  field_error :=
                    last_entry "name" (keyed_messages arrayIssues) |}
  end.
Proof.
  unfold action, decodeFormModel, formDataSchema_of, formatError, formatIssue.
  destruct (Schema_decode _ formData) as [data | error]; simpl;
    [reflexivity |].
  destruct (ArrayFormatter_formatIssue (issue error)) as [arrayIssues | []].
  exists arrayIssues. split; [reflexivity |]. simpl.
  rewrite mergeIssues_get, Map_get_new.
  change (is_own_key "name") with true. cbv iota.
  destruct (last_entry "name" (keyed_messages arrayIssues)); reflexivity.
Qed.

(** X21. A failed decode gives a mapping that is an object with one key per
    distinct path of the formatted issues, the path [__proto__] apart, so
    at most as many keys as formatted issues, and it is empty exactly when
    the formatter reports no other path. *)
Theorem decode_failure_mapping (formModelSchema : FormModelSchemaT)
  (formData : FormData) (error : ParseError)
  (arrayIssues : list ArrayFormatterIssue) :
  Schema_decode (formDataSchema_of formModelSchema) formData = Failure error ->
  ArrayFormatter_formatIssue (issue error) = Success arrayIssues ->
  exists result,
    decodeFormModel formModelSchema formData = Failure result
    /\ js_object result = true
    /\ List.NoDup (Object_keys result)
    /\ (forall key,
           In key (Object_keys result)
           <-> key <> proto /\ In key (map issue_key arrayIssues))
    /\ length (Object_keys result) <= length arrayIssues
    /\ (result = []
        <-> List.filter is_own_key (map issue_key arrayIssues) = []).
Proof.
  intros Hdecode HAF.
  unfold decodeFormModel, formatError, formatIssue.
  unfold formDataSchema_of in Hdecode. rewrite Hdecode. simpl. rewrite HAF.
  simpl. eexists. split; [reflexivity |].
  set (result := mergeIssues _ arrayIssues).
  assert (Hok : js_object result = true) by apply mergeIssues_ok.
  assert (Hnodup : List.NoDup (Object_keys result))
    by now apply js_keys_ok_NoDup.
  split; [exact Hok |]. split; [exact Hnodup |].
  split; [intros key; apply mergeIssues_keys |]. split.
  - rewrite <- (length_map issue_key arrayIssues).
    apply NoDup_incl_length; [exact Hnodup |].
    intros key Hkey. now apply mergeIssues_keys in Hkey.
  - split.
    + intros Hempty.
      destruct (List.filter is_own_key (map issue_key arrayIssues))
        as [| key rest] eqn:Hkept; [reflexivity |].
      assert (Hin : In key (List.filter is_own_key (map issue_key arrayIssues)))
        by (rewrite Hkept; now left).
      apply List.filter_In in Hin as [Hin Hown].
      assert (Hkey : In key (Object_keys result)).
      { apply mergeIssues_keys. split; [now apply is_own_key_true | exact Hin]. }
      rewrite Hempty in Hkey. destruct Hkey.
    + intros Hkept. destruct result as [| [key value] rest] eqn:Hresult;
        [reflexivity |].
      assert (Hkey : In key (Object_keys result))
        by (rewrite Hresult; now left).
      apply mergeIssues_keys in Hkey as [Hown Hin].
      assert (Hfilter : In key
                          (List.filter is_own_key (map issue_key arrayIssues))).
      { apply List.filter_In. split; [exact Hin | now apply is_own_key_true]. }
      rewrite Hkept in Hfilter. destruct Hfilter.
Qed.

End Forms.

(** ** Examples *)

(** Files are numbered handles and the other values are the booleans. *)
Example sample_fromFormDataRecord :
  fromFormDataRecord String_boolean (lossy_record 3 true)
  = [ ("agree", EntryString "true");
      ("pets", EntryString "Fido");
      ("pets", EntryFile 3) ].
Proof. reflexivity. Qed.

Example sample_toRecord :
  toRecord (Other := bool)
    [ ("pets", EntryString "Fido"); ("name", EntryString "John");
      ("pets", EntryString "Rex"); ("file", EntryFile 7) ]
  = [ ("pets", Many [JsString "Fido"; JsString "Rex"]);
      ("name", Single (JsString "John"));
      ("file", Single (JsFile 7)) ].
Proof. vm_compute. reflexivity. Qed.

Example sample_collect :
  collectActualValues SUndefined
    (age_issue tt (SObject "FormData") (SObject "record") (SText "17") (SNumber 17)) []
  = [ ("", SObject "FormData"); ("", SObject "record");
      ("age", SObject "record"); ("age", SText "17"); ("age", SNumber 17) ].
Proof. reflexivity. Qed.

Example sample_formatIssue :
  formatIssue SUndefined age_formatter
    (age_issue tt (SObject "FormData") (SObject "record") (SText "17") (SNumber 17))
  = Success
      [ ("age", {| actual := SNumber 17;
                   message := "Must be 18 or over! Got: 17" |}) ].
Proof. vm_compute. reflexivity. Qed.

(** Entries and formatted issues named [__proto__] leave no key. *)
Example sample_toRecord_proto :
  toRecord (File := nat) (Other := bool) proto_submission
  = [ ("a", Single (JsString "1")); ("b", Single (JsString "2")) ].
Proof. vm_compute. reflexivity. Qed.

Example sample_mergeIssues_proto :
  mergeIssues SUndefined (Map_new [(proto, SText "x")]) proto_issues = [].
Proof. reflexivity. Qed.

(** The two channels of [decodeFormModel], with a validator that accepts
    or rejects every submission. *)
Example sample_decode_success :
  decodeFormModel (File := nat) String_boolean SUndefined
    (age_formatter (Info := unit))
    (fun _ _ => unit) (fun _ => tt) (fun _ _ _ => tt)
    (fun _ _ => Success 18%N)
    (age_model (fun _ _ => unit) tt) [("age", EntryString "18")]
  = Success 18%N.
Proof. reflexivity. Qed.

Example sample_decode_failure :
  decodeFormModel (File := nat) (Model := N) String_boolean SUndefined
    age_formatter
    (fun _ _ => unit) (fun _ => tt) (fun _ _ _ => tt)
    (fun _ _ =>
       Failure
         {| issue := age_issue tt (SObject "FormData") (SObject "record")
                       (SText "17") (SNumber 17) |})
    (age_model (fun _ _ => unit) tt) [("age", EntryString "17")]
  = Failure
      [ ("age", {| actual := SNumber 17;
                   message := "Must be 18 or over! Got: 17" |}) ].
Proof. vm_compute. reflexivity. Qed.

(** ** Instances of the theorems *)

Lemma record_round_trip_witness :
  js_object (sample_record (Other := bool) 7) = true
  /\ forallb is_own_key (Object_keys (sample_record (Other := bool) 7)) = true
  /\ forallb (fun '(_, value) => is_grouped_value value)
       (sample_record (Other := bool) 7) = true
  /\ toRecord (Other := bool)
       (fromFormDataRecord String_boolean (sample_record 7))
     = sample_record 7.
Proof.
  split; [vm_compute; reflexivity |].
  split; [vm_compute; reflexivity |].
  split; [vm_compute; reflexivity |].
  apply (record_round_trip String_boolean (sample_record 7));
    vm_compute; reflexivity.
Defined.

(** The round trip of C1 does not reach arrays of one element: a record
    without [null] that holds one is read back with a single value in its
    place. *)
Lemma record_round_trip_counterexample :
  js_object (singleton_record (File := nat) (Other := bool)) = true
  /\ forallb (fun '(_, value) => has_no_null value)
       (singleton_record (File := nat) (Other := bool)) = true
  /\ toRecord (File := nat) (Other := bool)
       (fromFormDataRecord String_boolean singleton_record)
     = [ ("pets", Single (JsString "Fido")) ]
  /\ toRecord (File := nat) (Other := bool)
       (fromFormDataRecord String_boolean singleton_record)
     <> singleton_record.
Proof.
  split; [vm_compute; reflexivity |].
  split; [vm_compute; reflexivity |].
  split; [vm_compute; reflexivity |].
  vm_compute. discriminate.
Qed.

Lemma toRecord_grouping_witness :
  forallb is_own_key (map fst (index_submission (File := nat))) = true
  /\ Object_keys (toRecord (File := nat) (Other := bool) index_submission)
     = index_keys
         (Object_keys (toRecord (File := nat) (Other := bool) index_submission))
       ++ first_seen (named_keys (map fst (index_submission (File := nat))))
  /\ obj_get "b" (toRecord (File := nat) (Other := bool) index_submission)
     = Some (Single (JsString "x")).
Proof.
  split; [reflexivity |].
  destruct (toRecord_grouping (File := nat) (Other := bool) index_submission
              eq_refl)
    as (_ & _ & Horder & _ & Hget & _).
  split; [exact Horder |]. rewrite (Hget "b"). reflexivity.
Defined.

(** First-seen order, as in C2, is not kept for array indices: one that the
    submission has second is listed first. *)
Lemma toRecord_grouping_counterexample :
  Object_keys (toRecord (File := nat) (Other := bool) index_submission)
  = ["1"; "b"]
  /\ first_seen (map fst (index_submission (File := nat))) = ["b"; "1"]
  /\ Object_keys (toRecord (File := nat) (Other := bool) index_submission)
     <> first_seen (map fst (index_submission (File := nat))).
Proof.
  split; [vm_compute; reflexivity |].
  split; [vm_compute; reflexivity |].
  vm_compute. discriminate.
Qed.

Lemma fromFormDataRecord_entries_witness :
  js_object (lossy_record 3 true) = true
  /\ getAll "pets" (fromFormDataRecord String_boolean (lossy_record 3 true))
     = [EntryString "Fido"; EntryFile 3].
Proof.
  split; [vm_compute; reflexivity |].
  destruct (fromFormDataRecord_entries String_boolean (lossy_record 3 true))
    as (_ & Hget & _); [vm_compute; reflexivity |].
  rewrite (Hget "pets"). reflexivity.
Defined.

Lemma last_write_wins_witness :
  age_formatter (nested_issue tt (SObject "record") (SText "17") (SNumber 17))
  = Success
      [ {| issue_tag := "Refinement"; issue_path := [KString "age"];
           issue_message := "Must be 18 or over! Got: 17" |} ]
  /\ nested_leaf (Leaf TypeTag tt (Some (SNumber 17)))
     = Some (Some (SNumber 17))
  /\ exists result msg,
      formatIssue SUndefined age_formatter
        (nested_issue tt (SObject "record") (SText "17") (SNumber 17))
      = Success result
      /\ obj_get "age" result
         = Some {| actual := SNumber 17; message := msg |}.
Proof.
  split; [reflexivity |]. split; [reflexivity |].
  destruct (last_write_wins SUndefined age_formatter
              (nested_issue tt (SObject "record") (SText "17") (SNumber 17))
              _ eq_refl)
    as (actualMap & result & Hresult & _ & _ & Hleaf).
  destruct (Hleaf [("", SObject "record"); ("age", SObject "record")]
              tt (Some (SText "17")) (Leaf TypeTag tt (Some (SNumber 17)))
              [KString "age"] (Some (SNumber 17)) []
              eq_refl eq_refl (fun H => H))
    as [_ Hseen].
  assert (Hown : join "." [KString "age"] <> proto) by discriminate.
  destruct (Hseen Hown (or_introl eq_refl)) as [msg Hmsg].
  exists result, msg. split; [exact Hresult | exact Hmsg].
Defined.

Lemma merge_result_witness :
  age_formatter
    (age_issue tt (SObject "FormData") (SObject "record") (SText "17") (SNumber 17))
  = Success
      [ {| issue_tag := "Refinement"; issue_path := [KString "age"];
           issue_message := "Must be 18 or over! Got: 17" |} ]
  /\ forallb is_own_key
       (map issue_key
          [ {| issue_tag := "Refinement"; issue_path := [KString "age"];
               issue_message := "Must be 18 or over! Got: 17" |} ]) = true
  /\ exists result,
      formatIssue SUndefined age_formatter
        (age_issue tt (SObject "FormData") (SObject "record") (SText "17") (SNumber 17))
      = Success result
      /\ (forall key, In key (Object_keys result) <-> In key ["age"]).
Proof.
  split; [reflexivity |]. split; [reflexivity |].
  destruct (merge_result SUndefined age_formatter
              (age_issue tt (SObject "FormData") (SObject "record") (SText "17") (SNumber 17))
              _ eq_refl eq_refl)
    as (result & Hresult & _ & Hkeys & _).
  exists result. split; [exact Hresult | exact Hkeys].
Defined.

(** Not every formatted issue keeps its message, as C6 would have it: of two
    with the same path, the result has the message of the second. *)
Lemma merge_result_counterexample :
  ~ (forall e,
        In e duplicate_issues ->
        obj_get (issue_key e) (mergeIssues SUndefined ∅ duplicate_issues)
        = Some {| actual := Map_get SUndefined ∅ (issue_key e);
                  message := issue_message e |}).
Proof.
  intros H.
  specialize (H {| issue_tag := "Type"; issue_path := [KString "a"];
                   issue_message := "first" |}).
  vm_compute in H. specialize (H (or_introl eq_refl)). discriminate.
Qed.

Lemma capability_rejection_witness :
  not_form_coercible (TArray TNumber) = true
  /\ extends_FormDataCoercibleValue (TArray TNumber) = false
  /\ (FormFieldModelSchemaT (fun _ _ => unit) N (TArray TNumber) -> False).
Proof.
  split; [reflexivity |].
  exact (capability_rejection (fun _ _ => unit) N (TArray TNumber) eq_refl).
Defined.

Lemma singleton_list_collapses_witness :
  js_object (singleton_record (File := nat) (Other := bool)) = true
  /\ "pets" <> proto
  /\ obj_get "pets" (singleton_record (File := nat) (Other := bool))
     = Some (Many [JsString "Fido"])
  /\ obj_get "pets"
       (toRecord (File := nat) (Other := bool)
          (fromFormDataRecord String_boolean singleton_record))
     = Some (Single (JsString "Fido")).
Proof.
  assert (Hown : "pets" <> proto) by discriminate.
  split; [vm_compute; reflexivity |]. split; [exact Hown |].
  split; [reflexivity |].
  destruct (singleton_list_collapses (File := nat) String_boolean
              singleton_record "pets" (JsString "Fido")) as (_ & _ & Hsame);
    [vm_compute; reflexivity | exact Hown | reflexivity | reflexivity |].
  exact (Hsame eq_refl).
Defined.

(** ** Instances of the further facts *)

Lemma toRecord_reflects_values_witness :
  toRecord (File := nat) (Other := bool) interleaved_submission
  = toRecord grouped_submission
  /\ "a" <> proto
  /\ getAll (File := nat) "a" interleaved_submission
     = getAll "a" grouped_submission.
Proof.
  assert (Hsame : toRecord (File := nat) (Other := bool) interleaved_submission
                  = toRecord grouped_submission)
    by (vm_compute; reflexivity).
  assert (Hown : "a" <> proto) by discriminate.
  split; [exact Hsame |]. split; [exact Hown |].
  exact (toRecord_reflects_values (Other := bool) _ _ Hsame "a" Hown).
Defined.

Lemma toRecord_append_witness :
  "a" <> proto
  /\ obj_get "a"
       (toRecord (File := nat) (Other := bool)
          (append "a" (EntryString "3") grouped_submission))
     = Some (Many [JsString "1"; JsString "3"; JsString "3"]).
Proof.
  assert (Hown : "a" <> proto) by discriminate.
  split; [exact Hown |].
  destruct (toRecord_append (File := nat) (Other := bool) grouped_submission
              "a" (EntryString "3")) as [Hkey _].
  rewrite (Hkey Hown). reflexivity.
Defined.

Lemma fromFormDataRecord_writes_key_witness :
  js_object (lossy_record 3 true) = true
  /\ (In "gone" (map fst (fromFormDataRecord String_boolean (lossy_record 3 true)))
      <-> exists value,
          obj_get "gone" (lossy_record 3 true) = Some value
          /\ has_value value = true).
Proof.
  split; [vm_compute; reflexivity |].
  apply (fromFormDataRecord_writes_key String_boolean (lossy_record 3 true) "gone").
  vm_compute. reflexivity.
Defined.

Lemma fromFormDataRecord_skips_slot_witness :
  has_value (File := nat) (Other := bool) (Many [JsNull; JsUndefined]) = false
  /\ fromFormDataRecord (File := nat) String_boolean
       ([("a", Single (JsString "x"))]
          ++ ("n", Many [JsNull; JsUndefined]) :: [("b", Single (JsOther false))])
     = fromFormDataRecord String_boolean
         ([("a", Single (JsString "x"))] ++ [("b", Single (JsOther false))]).
Proof.
  split; [reflexivity |].
  apply (fromFormDataRecord_skips_slot String_boolean). reflexivity.
Defined.

Lemma collect_keys_extend_prefix_witness :
  In "form.age"
    (map fst
       (collectActualValues SUndefined
          (age_issue tt (SObject "FormData") (SObject "record") (SText "17") (SNumber 17))
          [KString "form"]))
  /\ exists segs, "form.age" = join "." ([KString "form"] ++ segs).
Proof.
  assert (Hin : In "form.age"
                  (map fst
                     (collectActualValues SUndefined
                        (age_issue tt (SObject "FormData") (SObject "record")
                           (SText "17") (SNumber 17))
                        [KString "form"]))).
  { simpl. right. right. now left. }
  split; [exact Hin |].
  exact (collect_keys_extend_prefix SUndefined _ _ _ Hin).
Defined.

Lemma join_app_witness :
  [KString "pets"] <> [] /\ [KNumber 0; KString "name"] <> []
  /\ join "." ([KString "pets"] ++ [KNumber 0; KString "name"])
     = join "." [KString "pets"] +:+ "." +:+ join "." [KNumber 0; KString "name"].
Proof.
  assert (H1 : [KString "pets"] <> []) by discriminate.
  assert (H2 : [KNumber 0; KString "name"] <> []) by discriminate.
  split; [exact H1 |]. split; [exact H2 |].
  exact (join_app "." _ _ H1 H2).
Defined.

Lemma pointer_actual_shadowed_witness :
  is_pointer (Refinement tt (Some (SNumber 17)) (Leaf TypeTag tt (Some (SNumber 17))))
  = false
  /\ Map_get SUndefined
       (Map_new
          (collectActualValues SUndefined
             (Pointer (PathSingle (KString "age")) (Some (SObject "record"))
                (Refinement tt (Some (SNumber 17))
                   (Leaf TypeTag tt (Some (SNumber 17)))))
             [])) "age"
     = Map_get SUndefined
         (Map_new
            (collectActualValues SUndefined
               (Refinement tt (Some (SNumber 17))
                  (Leaf TypeTag tt (Some (SNumber 17))))
               ([] ++ pathItems_of (PathSingle (KString "age"))))) "age".
Proof.
  split; [reflexivity |].
  apply (pointer_actual_shadowed SUndefined). reflexivity.
Defined.

Lemma formatIssue_actual_from_tree_witness :
  SNumber 17 = SUndefined
  \/ exists n,
      In n (subissues
              (age_issue tt (SObject "FormData") (SObject "record") (SText "17") (SNumber 17)))
      /\ SNumber 17 = or_undefined SUndefined (own_actual n).
Proof.
  apply (formatIssue_actual_from_tree SUndefined age_formatter
           (age_issue tt (SObject "FormData") (SObject "record") (SText "17") (SNumber 17))
           [ ("age", {| actual := SNumber 17;
                        message := "Must be 18 or over! Got: 17" |}) ]
           "age"
           {| actual := SNumber 17; message := "Must be 18 or over! Got: 17" |}).
  - vm_compute. reflexivity.
  - reflexivity.
Defined.

Lemma decode_failure_mapping_witness :
  exists result,
    decodeFormModel (File := nat) (Model := N) String_boolean SUndefined
      age_formatter
      (fun _ _ => unit) (fun _ => tt) (fun _ _ _ => tt)
      (fun _ _ =>
         Failure
           {| issue := age_issue tt (SObject "FormData") (SObject "record")
                         (SText "17") (SNumber 17) |})
      (age_model (fun _ _ => unit) tt) [("age", EntryString "17")]
    = Failure result
    /\ length (Object_keys result) <= 1.
Proof.
  destruct (decode_failure_mapping (File := nat) (Model := N) String_boolean
              SUndefined age_formatter
              (fun _ _ => unit) (fun _ => tt) (fun _ _ _ => tt)
              (fun _ _ =>
                 Failure
                   {| issue := age_issue tt (SObject "FormData")
                                 (SObject "record") (SText "17") (SNumber 17) |})
              (age_model (fun _ _ => unit) tt) [("age", EntryString "17")]
              _ _ eq_refl eq_refl)
    as (result & Hresult & _ & _ & _ & Hlen & _).
  exists result. split; [exact Hresult | exact Hlen].
Defined.
